(** * SPU execution core: oblivious sort engine and region executor

    Shallow embedding of [spu/kernel/hlo/sort.cc] and
    [spu/device/executor.cc], with the properties of the design document
    stated and proved over it. *)

From Stdlib Require Import ZArith List Bool Lia Sorted Permutation String.
From stdpp Require Import base gmap list.
Import ListNotations.

Local Open Scope nat_scope.

(** ** Outcomes of fallible code

    [YACL_ENFORCE] and [YACL_THROW] raise; an unchecked subscript out of
    range ([absl::Span::operator[]], [std::vector::operator[]]) has no
    defined behaviour at all. *)

Inductive Error :=
| InvalidSortDimension
| NotPowerOfTwo
| ArityMismatch
| MalformedRegion
| MissingTerminator
| UndefinedValue
| UnimplementedCapability
| KernelFailure.

Inductive Outcome (A : Type) :=
| Ok (a : A)
| Throw (e : Error)
| Undefined.
Arguments Ok {A} a.
Arguments Throw {A} e.
Arguments Undefined {A}.

Definition obind {A B} (m : Outcome A) (f : A -> Outcome B) : Outcome B :=
  match m with
  | Ok a => f a
  | Throw e => Throw e
  | Undefined => Undefined
  end.

(** ** Instrumentation

    Every compare-exchange window and every index list handed to
    [hal::permute] is recorded, in issue order. *)

Inductive Event :=
| EvPermute (index : list nat)
| EvCmpSwap (x_start y_start n : nat) (acc : bool).

Definition Traced (A : Type) : Type := (A * list Event)%type.

Definition tret {A} (a : A) : Traced A := (a, []).
Definition tbind {A B} (m : Traced A) (f : A -> Traced B) : Traced B :=
  let r := f (fst m) in (fst r, snd m ++ snd r).
Definition tell (e : Event) : Traced unit := (tt, [e]).

Notation "'run' x <- m 'in' k" := (tbind m (fun x => k))
  (at level 10, x name, m at level 100, k at level 200).

Module Sort.

Section Engine.

(** Element type of a tensor, and the indeterminate content of a freshly
    allocated buffer (also what the model reads out of range). *)
Variable E : Type.
Variable uninit : E.

(** A one-dimensional [spu::Value] is the list of its elements. *)
Definition Row := list E.

(** [CompFn]: receives, for every operand, the first and the second
    window ([x0; y0; x1; y1; ...]) and returns the predicate value. *)
Definition CompFn := list Row -> list bool.

(** *** Tensor primitives consumed by the engine

    The [hal] kernels and the [Value] accessors are used by [sort.cc] but
    defined elsewhere; each is modelled on plaintext rows from what the
    design document says of it (windowed slice, elementwise select,
    positional element copy, permutation of an axis by an explicit index
    list, single-element read). *)

(** Modelled from the spec: [hal::slice(v, {s}, {e}, {1})], the window
    [s, e) of a row. *)
Definition slice (v : Row) (s e : nat) : Row := firstn (e - s) (skipn s v).

(** Modelled from the spec: [hal::select(pred, a, b)], elementwise. *)
Fixpoint select (p : list bool) (a b : Row) : Row :=
  match p, a, b with
  | c :: p', x :: a', y :: b' => (if c then x else y) :: select p' a' b'
  | _, _, _ => []
  end.

(** Modelled from the spec: [dst.copyElementFrom(src, {}, {off},
    n * elsize)], [n] elements of [src] overwrite [dst] from offset
    [off] (every operand is taken to have the element size of the
    first). *)
Definition copyElementFrom (dst src : Row) (off n : nat) : Row :=
  firstn off dst ++ firstn n src ++ skipn (off + n) dst.

(** Modelled from the spec: [hal::permute(v, 0, index)], position [k]
    of the result holds element [index[k]] of [v]. *)
Definition permute (v : Row) (index : list nat) : Row :=
  map (fun i => nth i v uninit) index.

(** Modelled from the spec: [Value::getElementAt(a)], a scalar value. *)
Definition getElementAt (v : Row) (a : nat) : Row := [nth a v uninit].

(** Modelled from the spec: [getConditionValue], the revealed boolean
    of a scalar predicate. *)
Definition getConditionValue (p : list bool) : bool := hd false p.

(** *** cmpSwap *)

Definition cmpSwap (comparator_body : CompFn) (values_to_sort : list Row)
    (x_start_indices y_start_indices n : nat) (acc : bool)
  : Traced (list Row) :=
  let values :=
    flat_map (fun v => [slice v x_start_indices (x_start_indices + n);
                        slice v y_start_indices (y_start_indices + n)])
             values_to_sort in
  let predicate := comparator_body values in
  run _ <- tell (EvCmpSwap x_start_indices y_start_indices n acc) in
  tret (map (fun v =>
         let fst := slice v x_start_indices (x_start_indices + n) in
         let snd := slice v y_start_indices (y_start_indices + n) in
         let greater := select predicate fst snd in
         let less := select predicate snd fst in
         if acc
         then copyElementFrom (copyElementFrom v greater x_start_indices n)
                              less y_start_indices n
         else copyElementFrom (copyElementFrom v less x_start_indices n)
                              greater y_start_indices n)
       values_to_sort).

(** *** Sequential bitonic network *)

(** [emp::greatestPowerOfTwoLessThan] (emp-tool, not part of this
    repository): double [k] from 1 while [k < n], then halve. *)
Fixpoint gpow_loop (fuel k n : nat) : nat :=
  match fuel with
  | O => k
  | S f => if k <? n then gpow_loop f (2 * k) n else k
  end.

Definition greatestPowerOfTwoLessThan (n : nat) : nat :=
  Nat.div2 (gpow_loop n 1 n).

Fixpoint sequentialBitonicMerge_rec (fuel : nat) (comparator_body : CompFn)
    (values_to_sort : list Row) (lo n : nat) (acc : bool)
  : Traced (list Row) :=
  match fuel with
  | O => tret values_to_sort
  | S fuel' =>
    if 1 <? n then
      let m := greatestPowerOfTwoLessThan n in
      run v1 <- cmpSwap comparator_body values_to_sort lo (lo + m) (n - m) acc in
      run v2 <- sequentialBitonicMerge_rec fuel' comparator_body v1 lo m acc in
      sequentialBitonicMerge_rec fuel' comparator_body v2 (lo + m) (n - m) acc
    else tret values_to_sort
  end.

(** The recursion depth is below [n]: each call passes a strictly
    smaller, positive length. *)
Definition sequentialBitonicMerge (comparator_body : CompFn)
    (values_to_sort : list Row) (lo n : nat) (acc : bool) :=
  sequentialBitonicMerge_rec n comparator_body values_to_sort lo n acc.

Fixpoint sequentialBitonicSort_rec (fuel : nat) (comparator_body : CompFn)
    (values_to_sort : list Row) (lo n : nat) (acc : bool)
  : Traced (list Row) :=
  match fuel with
  | O => tret values_to_sort
  | S fuel' =>
    if 1 <? n then
      let m := Nat.shiftr n 1 in
      run v1 <- sequentialBitonicSort_rec fuel' comparator_body values_to_sort
              lo m (negb acc) in
      run v2 <- sequentialBitonicSort_rec fuel' comparator_body v1
              (lo + m) (n - m) acc in
      sequentialBitonicMerge comparator_body v2 lo n acc
    else tret values_to_sort
  end.

Definition sequentialBitonicSort (comparator_body : CompFn)
    (values_to_sort : list Row) (lo n : nat) (acc : bool) :=
  sequentialBitonicSort_rec n comparator_body values_to_sort lo n acc.

(** *** Precomputed schedules *)

(** [absl::has_single_bit] and [absl::bit_width] (Abseil): [n] is a
    power of two; the number of bits needed to write [n]. *)
Definition has_single_bit (n : nat) : bool :=
  negb (n =? 0) && (2 ^ Nat.log2 n =? n).

Definition bit_width (n : nat) : nat :=
  if n =? 0 then 0 else S (Nat.log2 n).

(** The inner loop shared by both generators: positions [0..n) split by
    a flag, the flagged-first group followed by the other. *)
Definition split_by (n : nat) (in_fst : nat -> bool) : list nat :=
  List.filter in_fst (seq 0 n)
  ++ List.filter (fun j => negb (in_fst j)) (seq 0 n).

(** [for (i = stage; i > 0; i--)] *)
Definition generateBitonicSortIndex (n : nat) : Outcome (list (list nat)) :=
  if has_single_bit n then
    let stage := bit_width n - 1 in
    Ok (map (fun i => split_by n (fun j => negb (Nat.testbit j (i - 1))))
            (rev (seq 1 stage)))
  else Throw NotPowerOfTwo.

(** [stage - 1] is computed on [size_t] and cast to [int]: for [n = 1]
    it is [-1] and for [n = 2] it is [0], so the outer loop is empty in
    both cases, as with the truncated subtraction here. *)
Definition generateBitonicMergeIndex (n : nat) : Outcome (list (list nat)) :=
  if has_single_bit n then
    let stage := bit_width n - 1 in
    Ok (flat_map (fun stage_idx =>
          map (fun substage_idx =>
                 split_by n (fun i =>
                   let asc_flag := negb (Nat.testbit i (stage_idx + 1)) in
                   let fst_flag := negb (Nat.testbit i substage_idx) in
                   negb (xorb asc_flag fst_flag)))
              (rev (seq 0 (S stage_idx))))
          (seq 0 (stage - 1)))
  else Throw NotPowerOfTwo.

(** *** std::sort / std::stable_sort

    Library code: modelled by a stable insertion sort, the result the
    standard prescribes for [std::stable_sort]; for [std::sort] it is
    one admissible result, and the only one when no two elements are
    equivalent under the comparator. What holds of every result
    [std::sort] may return on equivalent elements is stated on
    [SortWith] below, where the call is a parameter. *)
Fixpoint std_insert (lt : nat -> nat -> bool) (x : nat) (l : list nat) :=
  match l with
  | [] => [x]
  | y :: l' => if lt y x then y :: std_insert lt x l' else x :: y :: l'
  end.

Definition std_stable_sort (lt : nat -> nat -> bool) (l : list nat) :=
  fold_right (std_insert lt) [] l.

Definition std_sort := std_stable_sort.

(** *** Parallel bitonic network *)

Definition inverse_permutation (index : list nat) : list nat :=
  std_sort (fun left right => nth left index 0 <? nth right index 0)
           (seq 0 (length index)).

Definition parallelStage (comparator_body : CompFn) (n : nat)
    (target : list Row) (index : list nat) : Traced (list Row) :=
  run _ <- tell (EvPermute index) in
  let permuted_values := map (fun v => permute v index) target in
  run swapped <- cmpSwap comparator_body permuted_values 0 (n / 2) (n / 2) true in
  let inv := inverse_permutation index in
  run _ <- tell (EvPermute inv) in
  tret (map (fun v => permute v inv) swapped).

Fixpoint runStages (comparator_body : CompFn) (n : nat)
    (target : list Row) (indices : list (list nat)) : Traced (list Row) :=
  match indices with
  | [] => tret target
  | index :: rest =>
    run t <- parallelStage comparator_body n target index in
    runStages comparator_body n t rest
  end.

Definition parallelBitonicSort (comparator_body : CompFn)
    (values_to_sort : list Row) (n : nat) : Outcome (Traced (list Row)) :=
  if has_single_bit n then
    obind (generateBitonicMergeIndex n) (fun mi =>
    obind (generateBitonicSortIndex n) (fun si =>
      Ok (runStages comparator_body n values_to_sort (mi ++ si))))
  else Throw NotPowerOfTwo.

(** *** Sorting one row *)

(** The comparison-revealing path of [Sort], for one row. *)
Definition sortRowPublic (comparator_body : CompFn) (is_stable : bool)
    (values_to_sort : list Row) (sort_dim_elements : nat)
  : Traced (list Row) :=
  let indices_to_sort := seq 0 sort_dim_elements in
  let comparator := fun a b =>
    getConditionValue
      (comparator_body
         (flat_map (fun v => [getElementAt v a; getElementAt v b])
                   values_to_sort)) in
  let sorted :=
    if is_stable then std_stable_sort comparator indices_to_sort
    else std_sort comparator indices_to_sort in
  run _ <- tell (EvPermute sorted) in
  tret (map (fun v => permute v sorted) values_to_sort).

(** The oblivious path of [Sort], for one row: [n] is the element count
    of the first operand's row. *)
Definition sortRowSecret (comparator_body : CompFn)
    (values_to_sort : list Row) : Outcome (Traced (list Row)) :=
  let n := length (hd [] values_to_sort) in
  if has_single_bit n
  then parallelBitonicSort comparator_body values_to_sort n
  else Ok (sequentialBitonicSort comparator_body values_to_sort 0 n true).

(** *** Tensors of any rank *)

Record Value := mkValue { shape : list nat; data : list E }.

Inductive Visibility := VIS_PUBLIC | VIS_SECRET.

Definition numel (shp : list nat) : nat := fold_right Nat.mul 1 shp.

(** Row-major offset of a multi-index. *)
Definition flat_index (shp idx : list nat) : nat :=
  fold_left (fun off di => off * fst di + snd di) (combine shp idx) 0.

(** Modelled from the spec: [forEachIndex] of [hlo/utils.h] is not part
    of the sources at hand. With [increment[sort_dim]] set to the length
    of the sort axis it visits every index combination over the other
    axes once, the sort axis staying at 0, lowest axis fastest; a tensor
    with an empty axis has no row. *)
Fixpoint all_indices (counts : list nat) : list (list nat) :=
  match counts with
  | [] => [[]]
  | c :: rest =>
    flat_map (fun tl => map (fun i => i :: tl) (seq 0 c)) (all_indices rest)
  end.

Definition forEachIndex (key_shape : list nat) (sort_dim : nat)
  : list (list nat) :=
  if existsb (Nat.eqb 0) key_shape then []
  else all_indices (<[sort_dim := 1]> key_shape).

(** [hal::reshape(hal::slice(inputs[i], indices, limit_indices, {}),
    {sort_dim_elements})] for every operand. *)
Definition getValuesToSort (inputs : list Value) (indices : list nat)
    (sort_dim sort_dim_elements : nat) : list Row :=
  map (fun v =>
         map (fun k => nth (flat_index (shape v) (<[sort_dim := k]> indices))
                           (data v) uninit)
             (seq 0 sort_dim_elements))
      inputs.

Definition sliceCopy (dst : Value) (src : Row) (dst_indices : list nat)
    (dim : nat) : Value :=
  mkValue (shape dst)
    (fold_left (fun d idx =>
                  <[flat_index (shape dst) (<[dim := idx]> dst_indices)
                    := nth idx src uninit]> d)
               (seq 0 (length src)) (data dst)).

(** [results[i] <- sliceCopy(results[i], rows[i], indices, sort_dim)]
    for [i < num_operands]. *)
Fixpoint writeBack (results : list Value) (rows : list Row)
    (indices : list nat) (sort_dim : nat) : list Value :=
  match results, rows with
  | r :: results', row :: rows' =>
    sliceCopy r row indices sort_dim :: writeBack results' rows' indices sort_dim
  | _, _ => results
  end.

(** Unchecked subscript of a [std::vector]. *)
Definition vector_at (v : list nat) (i : Z) : Outcome nat :=
  if ((0 <=? i)%Z && (i <? Z.of_nat (length v))%Z)%bool
  then Ok (nth (Z.to_nat i) v 0)
  else Undefined.

Definition sortRow (comparator_body : CompFn) (is_stable : bool)
    (comparator_ret_vis : Visibility) (values_to_sort : list Row)
    (sort_dim_elements : nat) : Outcome (Traced (list Row)) :=
  match comparator_ret_vis with
  | VIS_PUBLIC =>
    Ok (sortRowPublic comparator_body is_stable values_to_sort
                      sort_dim_elements)
  | VIS_SECRET => sortRowSecret comparator_body values_to_sort
  end.

(** The body of the loop over rows, results and trace threaded. *)
Fixpoint sortRows (comparator_body : CompFn) (is_stable : bool)
    (comparator_ret_vis : Visibility) (inputs : list Value)
    (sort_dim sort_dim_elements : nat) (rows : list (list nat))
    (results : Traced (list Value)) : Outcome (Traced (list Value)) :=
  match rows with
  | [] => Ok results
  | indices :: rest =>
    let values_to_sort :=
      getValuesToSort inputs indices sort_dim sort_dim_elements in
    obind (sortRow comparator_body is_stable comparator_ret_vis
                   values_to_sort sort_dim_elements)
      (fun sorted =>
         sortRows comparator_body is_stable comparator_ret_vis inputs
           sort_dim sort_dim_elements rest
           (writeBack (fst results) (fst sorted) indices sort_dim,
            snd results ++ snd sorted))
  end.

Definition Sort (inputs : list Value) (sort_dim : Z) (is_stable : bool)
    (comparator_body : CompFn) (comparator_ret_vis : Visibility)
  : Outcome (Traced (list Value)) :=
  match inputs with
  | [] => Undefined                      (* inputs[0] on an empty span *)
  | key :: _ =>
    let key_shape := shape key in
    let rank := length key_shape in
    let results :=
      map (fun v => mkValue (shape v) (repeat uninit (numel (shape v))))
          inputs in
    (* int64_t sort_dim_elements = key_shape[sort_dim]; *)
    obind (vector_at key_shape sort_dim) (fun sort_dim_elements =>
    (* YACL_ENFORCE(sort_dim >= 0 && sort_dim < increment.size()) *)
    if ((0 <=? sort_dim)%Z && (sort_dim <? Z.of_nat rank)%Z)%bool then
      sortRows comparator_body is_stable comparator_ret_vis inputs
        (Z.to_nat sort_dim) sort_dim_elements
        (forEachIndex key_shape (Z.to_nat sort_dim)) (results, [])
    else Throw InvalidSortDimension)
  end.

(** The row of one operand at a row index, as [getValuesToSort] reads
    it. *)
Definition rowOf (v : Value) (indices : list nat)
    (sort_dim sort_dim_elements : nat) : Row :=
  map (fun k => nth (flat_index (shape v) (<[sort_dim := k]> indices))
                    (data v) uninit)
      (seq 0 sort_dim_elements).

(** A multi-index within a shape; a tensor whose buffer matches its
    shape. *)
Definition InRange (shp idx : list nat) : Prop :=
  Forall2 (fun i d => i < d) idx shp.

Definition WellShaped (shp : list nat) (v : Value) : Prop :=
  shape v = shp /\ length (data v) = numel shp.

(** *** Replaying a schedule

    What each recorded event does to the operands; running a recorded
    schedule again reproduces the values (see [replay_*] below). *)
Definition step (comparator_body : CompFn) (vals : list Row) (e : Event)
  : list Row :=
  match e with
  | EvPermute index => map (fun v => permute v index) vals
  | EvCmpSwap x y n acc => fst (cmpSwap comparator_body vals x y n acc)
  end.

Definition replay (comparator_body : CompFn) (vals : list Row)
    (tr : list Event) : list Row :=
  fold_left (step comparator_body) tr vals.

(** The two halves of [cmpSwap]: the windows handed to the comparator,
    and what one operand becomes under a given predicate. *)
Definition windows (vals : list Row) (x y n : nat) : list Row :=
  flat_map (fun v => [slice v x (x + n); slice v y (y + n)]) vals.

Definition swapRow (predicate : list bool) (x y n : nat) (acc : bool)
    (v : Row) : Row :=
  let fst := slice v x (x + n) in
  let snd := slice v y (y + n) in
  let greater := select predicate fst snd in
  let less := select predicate snd fst in
  if acc
  then copyElementFrom (copyElementFrom v greater x n) less y n
  else copyElementFrom (copyElementFrom v less x n) greater y n.

End Engine.

Arguments mkValue {E} shape data.
Arguments shape {E} v.
Arguments data {E} v.

(** The trace of a run, the values dropped. *)
Definition otrace {A} (o : Outcome (Traced A)) : Outcome (list Event) :=
  obind o (fun r => Ok (snd r)).

Definition ovalues {A} (o : Outcome (Traced A)) : Outcome A :=
  obind o (fun r => Ok (fst r)).

(** The comparator [<] on the first operand, read through [key]. *)
Fixpoint zip_lt {E} (key : E -> Z) (a b : list E) : list bool :=
  match a, b with
  | p :: a', q :: b' => (key p <? key q)%Z :: zip_lt key a' b'
  | _, _ => []
  end.

Definition lessThanBy {E} (key : E -> Z) : CompFn E :=
  fun values =>
    match values with
    | x :: y :: _ => zip_lt key x y
    | _ => []
    end.

Definition lessThan : CompFn Z := lessThanBy (fun z => z).

(** An event is well formed for rows of length [n]: an index list is a
    permutation of the positions, a pair of windows is disjoint, in order
    and within the row. *)
Definition ValidEvent (n : nat) (e : Event) : Prop :=
  match e with
  | EvPermute index => Permutation index (seq 0 n)
  | EvCmpSwap x y w _ => x + w <= y /\ y + w <= n
  end.

(** The same run on positions instead of elements: [idx] lists, for
    every position of the current rows, the position of the original
    rows [vals0] its element came from. *)
Definition stepIdx {E} (uninit : E) (cmp : CompFn E) (vals0 : list (Row E))
    (idx : list nat) (e : Event) : list nat :=
  match e with
  | EvPermute index => permute nat 0 idx index
  | EvCmpSwap x y w acc =>
    swapRow nat
      (cmp (windows E (map (fun v => permute E uninit v idx) vals0) x y w))
      x y w acc idx
  end.

Definition replayIdx {E} (uninit : E) (cmp : CompFn E) (vals0 : list (Row E))
    (idx : list nat) (tr : list Event) : list nat :=
  fold_left (stepIdx uninit cmp vals0) tr idx.

(** Contract of a comparator: one predicate entry per window position. *)
Definition LengthPreserving {E} (cmp : CompFn E) : Prop :=
  forall vs w, 2 <= length vs -> Forall (fun r => length r = w) vs ->
               length (cmp vs) = w.


(** The schedules as recorded on a run without operands. *)
Definition seqSchedule (lo n : nat) (acc : bool) : list Event :=
  snd (sequentialBitonicSort unit (fun _ => []) [] lo n acc).

Definition seqMergeSchedule (lo n : nat) (acc : bool) : list Event :=
  snd (sequentialBitonicMerge unit (fun _ => []) [] lo n acc).

Definition stagesSchedule (n : nat) (indices : list (list nat)) : list Event :=
  snd (runStages unit tt (fun _ => []) n [] indices).

Definition parSchedule (n : nat) : Outcome (list Event) :=
  otrace (parallelBitonicSort unit tt (fun _ => []) [] n).

(** *** One row of integer keys under [<]

    [stepRow] is [step] on a single operand compared by [lessThan]
    (lemma [replay_single]). *)
Definition stepRow (e : Event) (v : list Z) : list Z :=
  match e with
  | EvPermute index => permute Z 0%Z v index
  | EvCmpSwap x y w acc =>
    swapRow Z (zip_lt (fun z => z) (slice Z v x (x + w)) (slice Z v y (y + w)))
            x y w acc v
  end.

Definition replayRow (tr : list Event) (v : list Z) : list Z :=
  fold_left (fun r e => stepRow e r) tr v.

(** Threshold maps, rows of zeros and ones, and a sortedness test. *)
Definition thr (t x : Z) : Z := if (x <? t)%Z then 0%Z else 1%Z.

Definition Bit (x : Z) : Prop := x = 0%Z \/ x = 1%Z.

Fixpoint all01 (n : nat) : list (list Z) :=
  match n with
  | O => [[]]
  | S k => flat_map (fun l => [0%Z :: l; 1%Z :: l]) (all01 k)
  end.

Fixpoint sortedb (l : list Z) : bool :=
  match l with
  | a :: (b :: _) as t => (a <=? b)%Z && sortedb t
  | _ => true
  end.

Fixpoint eqb_row (a b : list Z) : bool :=
  match a, b with
  | [], [] => true
  | x :: a', y :: b' => (x =? y)%Z && eqb_row a' b'
  | _, _ => false
  end.

Fixpoint dedup_rows (l : list (list Z)) : list (list Z) :=
  match l with
  | [] => []
  | r :: l' => if existsb (eqb_row r) l' then dedup_rows l'
               else r :: dedup_rows l'
  end.

(** *** Reachable rows of a comparator schedule on 0/1 inputs

    A leading run of windows that each lie inside one half of the row
    acts on the two halves independently, so the rows reachable through
    it are the concatenations of the rows reachable on each half. *)
Definition lowEvent (h : nat) (e : Event) : bool :=
  match e with
  | EvCmpSwap x y w _ => (x + w <=? h) && (y + w <=? h)
  | EvPermute _ => false
  end.

Definition highEvent (h n : nat) (e : Event) : bool :=
  match e with
  | EvCmpSwap x y w _ =>
    negb (lowEvent h e) && (h <=? x) && (h <=? y)
    && (x + w <=? n) && (y + w <=? n)
  | EvPermute _ => false
  end.

Definition localEvent (h n : nat) (e : Event) : bool :=
  lowEvent h e || highEvent h n e.

Definition shiftEvent (h : nat) (e : Event) : Event :=
  match e with
  | EvCmpSwap x y w acc => EvCmpSwap (x - h) (y - h) w acc
  | EvPermute index => EvPermute index
  end.

Fixpoint localPrefix (h n : nat) (tr : list Event)
  : list Event * list Event :=
  match tr with
  | [] => ([], [])
  | e :: tr' =>
    if localEvent h n e
    then let r := localPrefix h n tr' in (e :: fst r, snd r)
    else ([], tr)
  end.

Definition concatRows (ls hs : list (list Z)) : list (list Z) :=
  flat_map (fun l => map (fun r => l ++ r) hs) ls.

Fixpoint reach (fuel n : nat) (tr : list Event) : list (list Z) :=
  match fuel with
  | O => dedup_rows (map (replayRow tr) (all01 n))
  | S fuel' =>
    if n <=? 4 then dedup_rows (map (replayRow tr) (all01 n))
    else
      let h := n / 2 in
      let pq := localPrefix h n tr in
      let lows := reach fuel' h (List.filter (lowEvent h) (fst pq)) in
      let highs :=
        reach fuel' (n - h)
              (map (shiftEvent h) (List.filter (highEvent h n) (fst pq))) in
      dedup_rows (map (replayRow (snd pq)) (concatRows lows highs))
  end.

(** One stage of the parallel network as unit-width windows: position
    [index[k]] against position [index[k + n/2]]. *)
Definition stageComparators (n : nat) (index : list nat) : list Event :=
  map (fun k => EvCmpSwap (nth k index 0) (nth (k + n / 2) index 0) 1 true)
      (seq 0 (n / 2)).

Definition stageEvents (n : nat) (index : list nat) : list Event :=
  [EvPermute index; EvCmpSwap 0 (n / 2) (n / 2) true;
   EvPermute (inverse_permutation index)].

(** The stage list of [parallelBitonicSort]: merge indices, then sort
    indices. *)
Definition parIndices (n : nat) : list (list nat) :=
  match generateBitonicMergeIndex n, generateBitonicSortIndex n with
  | Ok mi, Ok si => mi ++ si
  | _, _ => []
  end.

Definition StageAsComparators (n : nat) (index : list nat) : Prop :=
  forall v, length v = n ->
    replayRow (stageEvents n index) v = replayRow (stageComparators n index) v.

(** The schedule of the oblivious path for rows of length [n], and the
    permutation a row undergoes: position [k] of the sorted row holds
    element [pi[k]] of the row as extracted. *)
Definition secretSchedule (n : nat) : list Event :=
  if has_single_bit n then stagesSchedule n (parIndices n)
  else seqSchedule 0 n true.

Definition rowPermutation {E} (uninit : E) (cmp : CompFn E)
    (is_stable : bool) (vis : Visibility) (vals : list (Row E)) (n : nat)
  : list nat :=
  match vis with
  | VIS_PUBLIC =>
    (if is_stable then std_stable_sort else std_sort)
      (fun a b =>
         getConditionValue
           (cmp (flat_map (fun v => [getElementAt E uninit v a;
                                     getElementAt E uninit v b]) vals)))
      (seq 0 n)
  | VIS_SECRET => replayIdx uninit cmp vals (seq 0 n) (secretSchedule n)
  end.

(** What the oblivious path issues for a whole tensor: the row schedule
    once per row. *)
Definition sortSchedule (shp : list nat) (sort_dim : Z)
  : Outcome (list Event) :=
  obind (vector_at shp sort_dim) (fun n =>
    if ((0 <=? sort_dim)%Z && (sort_dim <? Z.of_nat (length shp))%Z)%bool
    then Ok (concat (map (fun _ => secretSchedule n)
                         (forEachIndex shp (Z.to_nat sort_dim))))
    else Throw InvalidSortDimension).

(** Elements of the worked examples: integer keys and string payloads. *)
Inductive Elem :=
| EInt (z : Z)
| EStr (s : string).

Definition keyOf (e : Elem) : Z :=
  match e with
  | EInt z => z
  | EStr _ => 0%Z
  end.

(** Orders on positions induced by a key: weak, and with ties broken by
    position (the order a stable sort produces). *)
Definition keyLe (kf : nat -> Z) (i j : nat) : Prop := (kf i <= kf j)%Z.

Definition stableLt (kf : nat -> Z) (i j : nat) : Prop :=
  (kf i < kf j)%Z \/ (kf i = kf j /\ i < j).



(** Rows sorted in non-increasing order. *)
Fixpoint sortedDescb (l : list Z) : bool :=
  match l with
  | a :: (b :: _) as t => (b <=? a)%Z && sortedDescb t
  | _ => true
  end.

Definition isCmpSwap (e : Event) : bool :=
  match e with
  | EvCmpSwap _ _ _ _ => true
  | EvPermute _ => false
  end.

(** *** Sort for every [std::sort]

    [std::sort] (line 274) leaves the order of elements that compare
    equivalent to the implementation, and is defined only for a
    comparator that is a strict weak ordering. [SortWith] is [Sort]
    with that call as the parameter [sorter], which may fail; [Sort] is
    its instance at [std_sort] (lemma [SortWith_std_sort]). The
    [std::sort] of [parallelBitonicSort] orders distinct positions by
    distinct index values under [<], where every implementation returns
    what [std_sort] returns. *)
Definition StrictWeakOrdering {A} (lt : A -> A -> bool) : Prop :=
  (forall a, lt a a = false)
  /\ (forall a b c, lt a b = true -> lt b c = true -> lt a c = true)
  /\ (forall a b c,
         lt a b = false -> lt b a = false ->
         lt b c = false -> lt c b = false ->
         lt a c = false /\ lt c a = false).

(** What is used of [std::sort]: it reads the comparator through its
    values only, and under a strict weak ordering it returns and its
    result is a rearrangement of the range. *)
Definition ConformingSort
    (sorter : (nat -> nat -> bool) -> list nat -> Outcome (list nat)) : Prop :=
  (forall lt lt' l, (forall a b, lt a b = lt' a b) -> sorter lt l = sorter lt' l)
  /\ (forall lt l, StrictWeakOrdering lt ->
        exists l', sorter lt l = Ok l' /\ Permutation l' l).

(** A sorter that is not stable: elements that compare equivalent come
    out in the reverse of their original order. *)
Definition ties_reversed_sort (lt : nat -> nat -> bool) (l : list nat)
  : Outcome (list nat) :=
  Ok (rev (std_stable_sort (fun a b => lt b a) l)).

Section AnyStdSort.

Variable E : Type.
Variable uninit : E.
Variable sorter : (nat -> nat -> bool) -> list nat -> Outcome (list nat).

(** The lambda [comparator] of the public path. *)
Definition comparator (comparator_body : CompFn E)
    (values_to_sort : list (Row E)) (a b : nat) : bool :=
  getConditionValue
    (comparator_body
       (flat_map (fun v => [getElementAt E uninit v a;
                            getElementAt E uninit v b])
                 values_to_sort)).

(** [indices_to_sort] after [std::stable_sort] or [std::sort]. *)
Definition sortedIndices (comparator_body : CompFn E) (is_stable : bool)
    (values_to_sort : list (Row E)) (sort_dim_elements : nat)
  : Outcome (list nat) :=
  let indices_to_sort := seq 0 sort_dim_elements in
  if is_stable
  then Ok (std_stable_sort (comparator comparator_body values_to_sort)
                           indices_to_sort)
  else sorter (comparator comparator_body values_to_sort) indices_to_sort.

Definition sortRowPublicWith (comparator_body : CompFn E) (is_stable : bool)
    (values_to_sort : list (Row E)) (sort_dim_elements : nat)
  : Outcome (Traced (list (Row E))) :=
  obind (sortedIndices comparator_body is_stable values_to_sort
                       sort_dim_elements)
    (fun sorted =>
       Ok (run _ <- tell (EvPermute sorted) in
           tret (map (fun v => permute E uninit v sorted) values_to_sort))).

Definition sortRowWith (comparator_body : CompFn E) (is_stable : bool)
    (comparator_ret_vis : Visibility) (values_to_sort : list (Row E))
    (sort_dim_elements : nat) : Outcome (Traced (list (Row E))) :=
  match comparator_ret_vis with
  | VIS_PUBLIC =>
    sortRowPublicWith comparator_body is_stable values_to_sort
                      sort_dim_elements
  | VIS_SECRET => sortRowSecret E uninit comparator_body values_to_sort
  end.

Fixpoint sortRowsWith (comparator_body : CompFn E) (is_stable : bool)
    (comparator_ret_vis : Visibility) (inputs : list (Value E))
    (sort_dim sort_dim_elements : nat) (rows : list (list nat))
    (results : Traced (list (Value E)))
  : Outcome (Traced (list (Value E))) :=
  match rows with
  | [] => Ok results
  | indices :: rest =>
    let values_to_sort :=
      getValuesToSort E uninit inputs indices sort_dim sort_dim_elements in
    obind (sortRowWith comparator_body is_stable comparator_ret_vis
                       values_to_sort sort_dim_elements)
      (fun sorted =>
         sortRowsWith comparator_body is_stable comparator_ret_vis inputs
           sort_dim sort_dim_elements rest
           (writeBack E uninit (fst results) (fst sorted) indices sort_dim,
            snd results ++ snd sorted))
  end.

Definition SortWith (inputs : list (Value E)) (sort_dim : Z)
    (is_stable : bool) (comparator_body : CompFn E)
    (comparator_ret_vis : Visibility)
  : Outcome (Traced (list (Value E))) :=
  match inputs with
  | [] => Undefined                      (* inputs[0] on an empty span *)
  | key :: _ =>
    let key_shape := shape key in
    let rank := length key_shape in
    let results :=
      map (fun v => mkValue (shape v) (repeat uninit (numel (shape v))))
          inputs in
    (* int64_t sort_dim_elements = key_shape[sort_dim]; *)
    obind (vector_at key_shape sort_dim) (fun sort_dim_elements =>
    (* YACL_ENFORCE(sort_dim >= 0 && sort_dim < increment.size()) *)
    if ((0 <=? sort_dim)%Z && (sort_dim <? Z.of_nat rank)%Z)%bool then
      sortRowsWith comparator_body is_stable comparator_ret_vis inputs
        (Z.to_nat sort_dim) sort_dim_elements
        (forEachIndex key_shape (Z.to_nat sort_dim)) (results, [])
    else Throw InvalidSortDimension)
  end.


End AnyStdSort.

End Sort.

(** * The region executor *)

Module Executor.

(** [mlir::Value]: the identity of a definition site. *)
Definition GraphValueId := nat.

(** The part of the IR the executor looks at: an operation has operands,
    results, a constant attribute and nested regions; a block has
    arguments, operations and, when well formed, a terminator. *)
Inductive Operation := mkOperation {
  opcode : nat;
  getOperands : list GraphValueId;
  getResults : list GraphValueId;
  attribute : Z;
  getRegions : list Region }
with Region := mkRegion {
  getBlocks : list Block }
with Block := mkBlock {
  blockArguments : list GraphValueId;
  without_terminator : list Operation;
  getTerminator : option Operation }.

(** [Region::getArguments]: the arguments of the entry block. *)
Definition getArguments (region : Region) : list GraphValueId :=
  match getBlocks region with
  | [] => []
  | b :: _ => blockArguments b
  end.

Definition getNumArguments (region : Region) : nat :=
  length (getArguments region).

Definition hasOneBlock (region : Region) : bool :=
  match getBlocks region with
  | [_] => true
  | _ => false
  end.

Local Set Warnings "-register-all".

Section Scopes.

(** [spu::Value], opaque to the executor. *)
Variable V : Type.

(** A scope owns its symbols and refers to the enclosing scope. *)
Inductive SymbolScope := mkSymbolScope {
  symbols_ : gmap GraphValueId V;
  parent_ : option SymbolScope }.

Fixpoint lookupValue (s : SymbolScope) (key : GraphValueId) : Outcome V :=
  match s with
  | mkSymbolScope symbols parent =>
    match symbols !! key with
    | Some v => Ok v
    | None =>
      match parent with
      | Some p => lookupValue p key
      | None => Throw UndefinedValue
      end
    end
  end.

Definition addValue (s : SymbolScope) (key : GraphValueId) (val : V)
  : SymbolScope :=
  mkSymbolScope (<[key := val]> (symbols_ s)) (parent_ s).

(** [OpExecutor::runKernel]: supplied from outside; it is handed the
    current scope and leaves it updated, or fails. *)
Definition OpExecutor := Operation -> SymbolScope -> Outcome SymbolScope.

(** [for (auto &op : block.without_terminator()) runKernel(..., op)] *)
Fixpoint runOps (executor : OpExecutor) (ops : list Operation)
    (symbols : SymbolScope) : Outcome SymbolScope :=
  match ops with
  | [] => Ok symbols
  | op :: rest =>
    obind (executor op symbols) (fun s => runOps executor rest s)
  end.

(** [results.emplace_back(symbols->lookupValue(operand))] in order. *)
Fixpoint lookupAll (symbols : SymbolScope) (operands : list GraphValueId)
  : Outcome (list V) :=
  match operands with
  | [] => Ok []
  | operand :: rest =>
    obind (lookupValue symbols operand) (fun v =>
    obind (lookupAll symbols rest) (fun vs => Ok (v :: vs)))
  end.

(** [runBlock]: the results, and the scope as the block leaves it. *)
Definition runBlock (executor : OpExecutor) (symbols : SymbolScope)
    (block : Block) (params : list V) : Outcome (list V * SymbolScope) :=
  obind (runOps executor (without_terminator block) symbols) (fun s =>
  match getTerminator block with
  | Some termOp =>
    obind (lookupAll s (getOperands termOp)) (fun results => Ok (results, s))
  | None => Throw MissingTerminator
  end).

(** [sscope.addValue(blkarg, params[blkarg.getArgNumber()])] for every
    block argument. *)
Fixpoint injectParams (sscope : SymbolScope) (args : list GraphValueId)
    (params : list V) : SymbolScope :=
  match args, params with
  | blkarg :: args', p :: params' =>
    injectParams (addValue sscope blkarg p) args' params'
  | _, _ => sscope
  end.

(** [runRegion]: the results, and the enclosing scope as the call
    leaves it (the child scope [sscope] dies with the call). *)
Definition runRegion (executor : OpExecutor)
    (parent_scope : option SymbolScope) (region : Region) (params : list V)
  : Outcome (list V * option SymbolScope) :=
  if getNumArguments region =? length params then
    let sscope := mkSymbolScope ∅ parent_scope in
    let sscope := injectParams sscope (getArguments region) params in
    if hasOneBlock region then
      match getBlocks region with
      | front :: _ =>
        obind (runBlock executor sscope front params) (fun r =>
          Ok (fst r, parent_ (snd r)))
      | [] => Throw MalformedRegion
      end
    else Throw MalformedRegion
  else Throw ArityMismatch.

(** [runBlockParallel]: [YACL_THROW("TODO")]. *)
Definition runBlockParallel (executor : OpExecutor) (symbols : SymbolScope)
    (block : Block) (params : list V) : Outcome (list V * SymbolScope) :=
  Throw UnimplementedCapability.

(** Lookup through a scope pointer that may be null. *)
Definition lookupIn (scope : option SymbolScope) (key : GraphValueId)
  : Outcome V :=
  match scope with
  | Some s => lookupValue s key
  | None => Throw UndefinedValue
  end.

(** A kernel that goes through the scope's interface ([lookupValue],
    [addValue], and [runRegion] with the scope as parent) leaves the
    enclosing scopes as they are. *)
Definition KeepsParent (executor : OpExecutor) : Prop :=
  forall op s s', executor op s = Ok s' -> parent_ s' = parent_ s.

End Scopes.

Arguments mkSymbolScope {V} symbols_ parent_.
Arguments symbols_ {V} s.
Arguments parent_ {V} s.
Arguments lookupValue {V} s key.
Arguments addValue {V} s key val.
Arguments runOps {V} executor ops symbols.
Arguments lookupAll {V} symbols operands.
Arguments runBlock {V} executor symbols block params.
Arguments injectParams {V} sscope args params.
Arguments runRegion {V} executor parent_scope region params.
Arguments lookupIn {V} scope key.
Arguments KeepsParent {V} executor.

(** The parameter a block argument is bound to on region entry: the
    loop of [runRegion] binds in order, so a repeated argument id keeps
    the last parameter. *)
Fixpoint argBinding {V} (args : list GraphValueId) (params : list V)
    (key : GraphValueId) : option V :=
  match args, params with
  | blkarg :: args', p :: params' =>
    match argBinding args' params' key with
    | Some v => Some v
    | None => if Nat.eqb blkarg key then Some p else None
    end
  | _, _ => None
  end.

(** *** A small kernel set

    Opcode 0 binds its result to its attribute; opcode 1 copies its
    operand to its result; opcode 2 runs its region on its operands in a
    scope chained to the current one and binds its results to what the
    region returns. [fuel] bounds the nesting depth. *)
Fixpoint bindAll (s : SymbolScope Z) (ids : list GraphValueId) (vs : list Z)
  : SymbolScope Z :=
  match ids, vs with
  | i :: ids', v :: vs' => bindAll (addValue s i v) ids' vs'
  | _, _ => s
  end.

Fixpoint sampleExecutor (fuel : nat) (op : Operation) (s : SymbolScope Z)
  : Outcome (SymbolScope Z) :=
  match fuel with
  | O => Throw KernelFailure
  | S fuel' =>
    match opcode op with
    | 0 => Ok (bindAll s (getResults op) [attribute op])
    | 1 =>
      obind (lookupAll s (getOperands op)) (fun vs =>
        Ok (bindAll s (getResults op) vs))
    | 2 =>
      match getRegions op with
      | region :: _ =>
        obind (lookupAll s (getOperands op)) (fun params =>
        obind (runRegion (sampleExecutor fuel') (Some s) region params)
          (fun r =>
             match snd r with
             | Some s' => Ok (bindAll s' (getResults op) (fst r))
             | None => Throw KernelFailure
             end))
      | [] => Throw KernelFailure
      end
    | _ => Throw KernelFailure
    end
  end.

(** A region that rebinds an outer id and binds a fresh one, the region
    calling it, and the scopes around the inner run. *)
Definition sampleInner : Region :=
  mkRegion
    [mkBlock [7]
       [mkOperation 0 [] [1] 99 []; mkOperation 0 [] [5] 55 []]
       (Some (mkOperation 9 [1; 7] [] 0 []))].

Definition sampleOuter : Region :=
  mkRegion
    [mkBlock []
       [mkOperation 0 [] [1] 10 []; mkOperation 2 [1] [2; 3] 0 [sampleInner]]
       (Some (mkOperation 9 [1; 2; 3] [] 0 []))].

Definition sampleParent : SymbolScope Z :=
  mkSymbolScope (<[1 := 10%Z]> ∅) None.

Definition sampleInnerFinal : SymbolScope Z :=
  mkSymbolScope (<[5 := 55%Z]> (<[1 := 99%Z]> (<[7 := 3%Z]> ∅)))
                (Some sampleParent).

End Executor.

(** * Properties of the sort engine *)

Module SortFacts.
Import Sort.

Section Traces.

Context {E : Type} (uninit : E).
Implicit Types (cmp : CompFn E) (vals : list (Row E)).

Lemma fst_tbind {A B} (m : Traced A) (f : A -> Traced B) :
  fst (tbind m f) = fst (f (fst m)).
Proof. reflexivity. Qed.

Lemma snd_tbind {A B} (m : Traced A) (f : A -> Traced B) :
  snd (tbind m f) = snd m ++ snd (f (fst m)).
Proof. reflexivity. Qed.

Lemma replay_app cmp vals t1 t2 :
  replay E uninit cmp vals (t1 ++ t2)
  = replay E uninit cmp (replay E uninit cmp vals t1) t2.
Proof. apply fold_left_app. Qed.

Lemma cmpSwap_trace cmp vals x y n acc :
  snd (cmpSwap E cmp vals x y n acc) = [EvCmpSwap x y n acc].
Proof. reflexivity. Qed.

(** The recorded windows never depend on the operands or the
    comparator. *)
Lemma merge_rec_trace_indep {E'} fuel cmp vals (cmp' : CompFn E')
    (vals' : list (Row E')) lo n acc :
  snd (sequentialBitonicMerge_rec E fuel cmp vals lo n acc)
  = snd (sequentialBitonicMerge_rec E' fuel cmp' vals' lo n acc).
Proof.
  revert vals vals' lo n.
  induction fuel as [|fuel IH]; intros vals vals' lo n; simpl; [reflexivity|].
  destruct (1 <? n); [|reflexivity].
  rewrite !snd_tbind, !cmpSwap_trace.
  f_equal. f_equal; apply IH.
Qed.

Lemma merge_trace cmp vals lo n acc :
  snd (sequentialBitonicMerge E cmp vals lo n acc) = seqMergeSchedule lo n acc.
Proof. apply merge_rec_trace_indep. Qed.

Lemma sort_rec_trace_indep {E'} fuel cmp vals (cmp' : CompFn E')
    (vals' : list (Row E')) lo n acc :
  snd (sequentialBitonicSort_rec E fuel cmp vals lo n acc)
  = snd (sequentialBitonicSort_rec E' fuel cmp' vals' lo n acc).
Proof.
  revert vals vals' lo n acc.
  induction fuel as [|fuel IH]; intros vals vals' lo n acc; simpl;
    [reflexivity|].
  destruct (1 <? n); [|reflexivity].
  rewrite !snd_tbind.
  f_equal; [apply IH|]. f_equal; [apply IH|].
  apply merge_rec_trace_indep.
Qed.

Lemma sort_trace cmp vals lo n acc :
  snd (sequentialBitonicSort E cmp vals lo n acc) = seqSchedule lo n acc.
Proof. apply sort_rec_trace_indep. Qed.

Lemma stage_trace cmp n vals index :
  snd (parallelStage E uninit cmp n vals index)
  = [EvPermute index; EvCmpSwap 0 (n / 2) (n / 2) true;
     EvPermute (inverse_permutation index)].
Proof. reflexivity. Qed.

Lemma stages_trace_indep {E'} (u' : E') cmp n vals (cmp' : CompFn E')
    (vals' : list (Row E')) indices :
  snd (runStages E uninit cmp n vals indices)
  = snd (runStages E' u' cmp' n vals' indices).
Proof.
  revert vals vals'.
  induction indices as [|index rest IH]; intros vals vals';
    cbn [runStages]; [reflexivity|].
  rewrite !snd_tbind, !stage_trace. f_equal. apply IH.
Qed.

Lemma stages_trace cmp n vals indices :
  snd (runStages E uninit cmp n vals indices) = stagesSchedule n indices.
Proof. apply stages_trace_indep. Qed.

Lemma parallel_trace cmp vals n :
  otrace (parallelBitonicSort E uninit cmp vals n) = parSchedule n.
Proof.
  unfold parSchedule, parallelBitonicSort.
  destruct (has_single_bit n); [|reflexivity].
  destruct (generateBitonicMergeIndex n) as [mi| |]; simpl; try reflexivity.
  destruct (generateBitonicSortIndex n) as [si| |]; simpl; try reflexivity.
  rewrite !stages_trace. reflexivity.
Qed.

(** Running the recorded schedule again gives the values back. *)
Lemma merge_rec_replay fuel cmp vals lo n acc :
  fst (sequentialBitonicMerge_rec E fuel cmp vals lo n acc)
  = replay E uninit cmp vals
      (snd (sequentialBitonicMerge_rec E fuel cmp vals lo n acc)).
Proof.
  revert vals lo n.
  induction fuel as [|fuel IH]; intros vals lo n; simpl; [reflexivity|].
  destruct (1 <? n); [|reflexivity].
  rewrite !fst_tbind, !snd_tbind, !replay_app.
  rewrite IH. f_equal. rewrite IH. f_equal.
Qed.

Lemma sort_rec_replay fuel cmp vals lo n acc :
  fst (sequentialBitonicSort_rec E fuel cmp vals lo n acc)
  = replay E uninit cmp vals
      (snd (sequentialBitonicSort_rec E fuel cmp vals lo n acc)).
Proof.
  revert vals lo n acc.
  induction fuel as [|fuel IH]; intros vals lo n acc; simpl; [reflexivity|].
  destruct (1 <? n); [|reflexivity].
  rewrite !fst_tbind, !snd_tbind, !replay_app.
  unfold sequentialBitonicMerge. rewrite merge_rec_replay.
  f_equal. rewrite IH. f_equal. rewrite IH. f_equal.
Qed.

Lemma seq_sort_replay cmp vals lo n acc :
  fst (sequentialBitonicSort E cmp vals lo n acc)
  = replay E uninit cmp vals (seqSchedule lo n acc).
Proof.
  rewrite <- (sort_trace cmp vals). apply sort_rec_replay.
Qed.

Lemma stages_replay cmp n vals indices :
  fst (runStages E uninit cmp n vals indices)
  = replay E uninit cmp vals (stagesSchedule n indices).
Proof.
  rewrite <- (stages_trace cmp n vals). revert vals.
  induction indices as [|index rest IH]; intros vals;
    cbn [runStages]; [reflexivity|].
  rewrite fst_tbind, snd_tbind, replay_app, IH. f_equal.
Qed.

End Traces.

(** ** Algebra of the row primitives *)

Section Rows.

Context {E : Type}.
Implicit Types (v a b : list E) (p : list bool).

Lemma cmpSwap_values (cmp : CompFn E) vals x y n acc :
  fst (cmpSwap E cmp vals x y n acc)
  = map (swapRow E (cmp (windows E vals x y n)) x y n acc) vals.
Proof. reflexivity. Qed.

Lemma slice_length v s n :
  s + n <= length v -> length (slice E v s (s + n)) = n.
Proof.
  intros H. unfold slice. rewrite length_take, length_drop. lia.
Qed.

Lemma select_length p a b :
  length (select E p a b) = Nat.min (length p) (Nat.min (length a) (length b)).
Proof.
  revert a b. induction p as [|c p IH]; intros [|x a] [|y b]; simpl;
    try reflexivity.
  rewrite IH. reflexivity.
Qed.

Lemma copyElementFrom_length v src off n :
  off + n <= length v -> n <= length src ->
  length (copyElementFrom E v src off n) = length v.
Proof.
  intros H1 H2. unfold copyElementFrom.
  rewrite !length_app, !length_take, length_drop. lia.
Qed.

Lemma swapRow_length p x y n acc v :
  length p = n -> x + n <= length v -> y + n <= length v ->
  length (swapRow E p x y n acc v) = length v.
Proof.
  intros Hp Hx Hy. unfold swapRow.
  assert (Hs : forall a b, length a = n -> length b = n ->
                      n <= length (select E p a b)).
  { intros a b Ha Hb. rewrite select_length. lia. }
  pose proof (slice_length v x n Hx) as Lx.
  pose proof (slice_length v y n Hy) as Ly.
  destruct acc; rewrite !copyElementFrom_length; auto;
    rewrite ?copyElementFrom_length; auto.
Qed.

(** Naturality: the primitives commute with a map over the elements. *)
Lemma slice_map {F} (f : E -> F) v s e :
  slice F (map f v) s e = map f (slice E v s e).
Proof. unfold slice. now rewrite <- fmap_drop, <- fmap_take. Qed.

Lemma select_map {F} (f : E -> F) p a b :
  select F p (map f a) (map f b) = map f (select E p a b).
Proof.
  revert a b. induction p as [|c p IH]; intros [|x a] [|y b]; simpl;
    try reflexivity.
  rewrite IH. now destruct c.
Qed.

Lemma copyElementFrom_map {F} (f : E -> F) v src off n :
  copyElementFrom F (map f v) (map f src) off n
  = map f (copyElementFrom E v src off n).
Proof.
  unfold copyElementFrom.
  now rewrite !map_app, <- !fmap_take, <- !fmap_drop.
Qed.

Lemma swapRow_map {F} (f : E -> F) p x y n acc v :
  swapRow F p x y n acc (map f v) = map f (swapRow E p x y n acc v).
Proof.
  unfold swapRow.
  rewrite !slice_map, !select_map.
  destruct acc; now rewrite !copyElementFrom_map.
Qed.

Lemma slice_app_mid a w rest :
  slice E (a ++ w ++ rest) (length a) (length a + length w) = w.
Proof.
  unfold slice. rewrite drop_app_length.
  replace (length a + length w - length a) with (length w) by lia.
  apply take_app_length.
Qed.

Lemma copyElementFrom_app_mid a w rest src :
  length src = length w ->
  copyElementFrom E (a ++ w ++ rest) src (length a) (length w) = a ++ src ++ rest.
Proof.
  intros H. unfold copyElementFrom.
  rewrite take_app_length, (take_ge src) by lia.
  rewrite (app_assoc a w rest), drop_app_length' by (rewrite length_app; lia).
  reflexivity.
Qed.

Lemma swapRow_split p acc a X b Y c :
  length p = length X -> length Y = length X ->
  swapRow E p (length a) (length a + length X + length b) (length X) acc
          (a ++ X ++ b ++ Y ++ c)
  = a ++ (if acc then select E p X Y else select E p Y X) ++ b
      ++ (if acc then select E p Y X else select E p X Y) ++ c.
Proof.
  intros Hp HY. unfold swapRow.
  rewrite slice_app_mid.
  assert (HsY : slice E (a ++ X ++ b ++ Y ++ c) (length a + length X + length b)
            (length a + length X + length b + length X) = Y).
  { replace (a ++ X ++ b ++ Y ++ c) with ((a ++ X ++ b) ++ Y ++ c)
      by now rewrite <- !app_assoc.
    replace (length a + length X + length b) with (length (a ++ X ++ b))
      by (rewrite !length_app; lia).
    rewrite <- HY. apply slice_app_mid. }
  rewrite HsY.
  assert (L1 : length (select E p X Y) = length X)
    by (rewrite select_length; lia).
  assert (L2 : length (select E p Y X) = length X)
    by (rewrite select_length; lia).
  destruct acc.
  - rewrite copyElementFrom_app_mid by exact L1.
    replace (a ++ select E p X Y ++ b ++ Y ++ c)
      with ((a ++ select E p X Y ++ b) ++ Y ++ c) by now rewrite <- !app_assoc.
    replace (length a + length X + length b)
      with (length (a ++ select E p X Y ++ b)) by (rewrite !length_app; lia).
    rewrite <- HY. rewrite copyElementFrom_app_mid by lia.
    now rewrite <- !app_assoc.
  - rewrite copyElementFrom_app_mid by exact L2.
    replace (a ++ select E p Y X ++ b ++ Y ++ c)
      with ((a ++ select E p Y X ++ b) ++ Y ++ c) by now rewrite <- !app_assoc.
    replace (length a + length X + length b)
      with (length (a ++ select E p Y X ++ b)) by (rewrite !length_app; lia).
    rewrite <- HY. rewrite copyElementFrom_app_mid by lia.
    now rewrite <- !app_assoc.
Qed.

Lemma row_split v x y n :
  x + n <= y -> y + n <= length v ->
  exists a X b Y c, v = a ++ X ++ b ++ Y ++ c /\ length a = x /\ length X = n
    /\ length b = y - x - n /\ length Y = n.
Proof.
  intros H1 H2.
  exists (take x v), (take n (drop x v)), (take (y - x - n) (drop (x + n) v)),
    (take n (drop y v)), (drop (y + n) v).
  repeat split.
  - rewrite <- (take_drop x v) at 1. f_equal.
    rewrite <- (take_drop n (drop x v)) at 1. f_equal.
    rewrite drop_drop.
    rewrite <- (take_drop (y - x - n) (drop (x + n) v)) at 1. f_equal.
    rewrite drop_drop. replace (x + n + (y - x - n)) with y by lia.
    rewrite <- (take_drop n (drop y v)) at 1. f_equal.
    now rewrite drop_drop.
  - rewrite length_take. lia.
  - rewrite length_take, length_drop. lia.
  - rewrite length_take, length_drop. lia.
  - rewrite length_take, length_drop. lia.
Qed.

Lemma select_Permutation p a b :
  length p = length a -> length b = length a ->
  Permutation (select E p a b ++ select E p b a) (a ++ b).
Proof.
  revert a b. induction p as [|c p IH]; intros [|x a] [|y b]; simpl;
    intros Hp Hb; try discriminate; [constructor|].
  injection Hp as Hp. injection Hb as Hb.
  specialize (IH a b Hp Hb).
  destruct c.
  - constructor. rewrite <- !Permutation_middle. constructor. exact IH.
  - rewrite <- !Permutation_middle.
    etransitivity; [apply perm_swap|]. constructor. constructor. exact IH.
Qed.

Lemma swapRow_Permutation p x y n acc v :
  length p = n -> x + n <= y -> y + n <= length v ->
  Permutation (swapRow E p x y n acc v) v.
Proof.
  intros Hp H1 H2.
  destruct (row_split v x y n H1 H2) as (a & X & b & Y & c & -> & Ha & HX & Hb & HY).
  replace x with (length a) by exact Ha.
  replace y with (length a + length X + length b) by lia.
  rewrite <- HX.
  rewrite swapRow_split by lia.
  apply Permutation_app_head.
  assert (P := select_Permutation p X Y ltac:(lia) ltac:(lia)).
  destruct acc.
  - rewrite !app_assoc.
    apply Permutation_app_tail.
    rewrite <- !app_assoc.
    etransitivity; [apply Permutation_app_head, Permutation_app_comm|].
    etransitivity; [|apply Permutation_app_head, Permutation_app_comm].
    rewrite !app_assoc. apply Permutation_app_tail. exact P.
  - rewrite !app_assoc.
    apply Permutation_app_tail.
    rewrite <- !app_assoc.
    etransitivity; [apply Permutation_app_head, Permutation_app_comm|].
    etransitivity; [|apply Permutation_app_head, Permutation_app_comm].
    rewrite !app_assoc. apply Permutation_app_tail.
    etransitivity; [apply Permutation_app_comm|]. exact P.
Qed.

End Rows.

(** ** The sequential recursion never runs out of fuel *)

Section Fuel.

Context {E : Type}.
Implicit Types (cmp : CompFn E) (vals : list (Row E)).

Lemma gpow_loop_spec fuel k n :
  1 <= k -> n <= k + fuel ->
  (k = 1 \/ exists q, k = 2 * q /\ q < n) ->
  n <= gpow_loop fuel k n /\
  (gpow_loop fuel k n = 1 \/ exists q, gpow_loop fuel k n = 2 * q /\ q < n).
Proof.
  revert k. induction fuel as [|fuel IH]; intros k Hk Hn Hinv; simpl.
  - split; [lia|exact Hinv].
  - destruct (Nat.ltb_spec k n) as [Hlt|Hge].
    + apply IH; [lia|lia|]. right. exists k. lia.
    + split; [lia|exact Hinv].
Qed.

Lemma greatestPowerOfTwoLessThan_bounds n :
  2 <= n ->
  greatestPowerOfTwoLessThan n < n /\ n <= 2 * greatestPowerOfTwoLessThan n.
Proof.
  intros Hn. unfold greatestPowerOfTwoLessThan.
  assert (H : 1 = 1 \/ exists q, 1 = 2 * q /\ q < n) by (left; reflexivity).
  destruct (gpow_loop_spec n 1 n (le_n 1) ltac:(lia) H)
    as [Hge [H1|(q & Hq & Hlt)]]; [lia|].
  rewrite Hq in *. rewrite Nat.div2_double. lia.
Qed.

Lemma shiftr1_bounds n :
  2 <= n -> 1 <= Nat.shiftr n 1 /\ Nat.shiftr n 1 < n.
Proof.
  intros Hn. change (Nat.shiftr n 1) with (Nat.div2 n).
  rewrite Nat.div2_div.
  split.
  - apply Nat.div_le_lower_bound; lia.
  - apply Nat.div_lt; lia.
Qed.

Lemma merge_rec_fuel fuel cmp vals lo n acc :
  n <= fuel ->
  sequentialBitonicMerge_rec E fuel cmp vals lo n acc
  = sequentialBitonicMerge_rec E n cmp vals lo n acc.
Proof.
  revert fuel vals lo.
  induction n as [n IHn] using lt_wf_ind; intros fuel vals lo Hf.
  destruct fuel as [|fuel]; [replace n with 0 by lia; reflexivity|].
  destruct n as [|n]; [reflexivity|].
  cbn [sequentialBitonicMerge_rec].
  destruct (Nat.ltb_spec 1 (S n)) as [H1|H1]; [|reflexivity].
  destruct (greatestPowerOfTwoLessThan_bounds (S n)) as [Hm1 Hm2]; [lia|].
  set (m := greatestPowerOfTwoLessThan (S n)) in *.
  unfold tbind; cbv beta.
  rewrite !(IHn m ltac:(lia) fuel), !(IHn m ltac:(lia) n) by lia.
  rewrite !(IHn (S n - m) ltac:(lia) fuel), !(IHn (S n - m) ltac:(lia) n)
    by lia.
  reflexivity.
Qed.

Lemma sequentialBitonicMerge_eq cmp vals lo n acc :
  sequentialBitonicMerge E cmp vals lo n acc
  = if 1 <? n then
      let m := greatestPowerOfTwoLessThan n in
      run v1 <- cmpSwap E cmp vals lo (lo + m) (n - m) acc in
      run v2 <- sequentialBitonicMerge E cmp v1 lo m acc in
      sequentialBitonicMerge E cmp v2 (lo + m) (n - m) acc
    else tret vals.
Proof.
  unfold sequentialBitonicMerge.
  destruct n as [|n]; [reflexivity|].
  cbn [sequentialBitonicMerge_rec].
  destruct (Nat.ltb_spec 1 (S n)) as [H1|H1]; [|reflexivity].
  destruct (greatestPowerOfTwoLessThan_bounds (S n)) as [Hm1 Hm2]; [lia|].
  cbv zeta. set (m := greatestPowerOfTwoLessThan (S n)) in *.
  unfold tbind; cbv beta.
  rewrite !(merge_rec_fuel n _ _ _ m), !(merge_rec_fuel n _ _ _ (S n - m))
    by lia.
  reflexivity.
Qed.

Lemma sort_rec_fuel fuel cmp vals lo n acc :
  n <= fuel ->
  sequentialBitonicSort_rec E fuel cmp vals lo n acc
  = sequentialBitonicSort_rec E n cmp vals lo n acc.
Proof.
  revert fuel vals lo acc.
  induction n as [n IHn] using lt_wf_ind; intros fuel vals lo acc Hf.
  destruct fuel as [|fuel]; [replace n with 0 by lia; reflexivity|].
  destruct n as [|n]; [reflexivity|].
  cbn [sequentialBitonicSort_rec].
  destruct (Nat.ltb_spec 1 (S n)) as [H1|H1]; [|reflexivity].
  destruct (shiftr1_bounds (S n)) as [Hm1 Hm2]; [lia|].
  cbv zeta. set (m := Nat.shiftr (S n) 1) in *.
  unfold tbind; cbv beta.
  rewrite !(IHn m ltac:(lia) fuel), !(IHn m ltac:(lia) n) by lia.
  rewrite !(IHn (S n - m) ltac:(lia) fuel), !(IHn (S n - m) ltac:(lia) n)
    by lia.
  reflexivity.
Qed.

Lemma sequentialBitonicSort_eq cmp vals lo n acc :
  sequentialBitonicSort E cmp vals lo n acc
  = if 1 <? n then
      let m := Nat.shiftr n 1 in
      run v1 <- sequentialBitonicSort E cmp vals lo m (negb acc) in
      run v2 <- sequentialBitonicSort E cmp v1 (lo + m) (n - m) acc in
      sequentialBitonicMerge E cmp v2 lo n acc
    else tret vals.
Proof.
  unfold sequentialBitonicSort.
  destruct n as [|n]; [reflexivity|].
  cbn [sequentialBitonicSort_rec].
  destruct (Nat.ltb_spec 1 (S n)) as [H1|H1]; [|reflexivity].
  destruct (shiftr1_bounds (S n)) as [Hm1 Hm2]; [lia|].
  cbv zeta. set (m := Nat.shiftr (S n) 1) in *.
  unfold tbind; cbv beta.
  rewrite !(sort_rec_fuel n _ _ _ m), !(sort_rec_fuel n _ _ _ (S n - m))
    by lia.
  reflexivity.
Qed.
End Fuel.

(** ** Schedules are well formed *)

Section Schedules.

Lemma std_insert_Permutation lt x l : Permutation (std_insert lt x l) (x :: l).
Proof.
  induction l as [|y l IH]; simpl; [reflexivity|].
  destruct (lt y x); [|reflexivity].
  rewrite IH. apply perm_swap.
Qed.

Lemma std_stable_sort_Permutation lt l : Permutation (std_stable_sort lt l) l.
Proof.
  induction l as [|x l IH]; simpl; [reflexivity|].
  rewrite std_insert_Permutation. now constructor.
Qed.

Lemma inverse_permutation_Permutation index :
  Permutation (inverse_permutation index) (seq 0 (length index)).
Proof. apply std_stable_sort_Permutation. Qed.

Lemma filter_split_Permutation {A} (f : A -> bool) (l : list A) :
  Permutation (List.filter f l ++ List.filter (fun x => negb (f x)) l) l.
Proof.
  induction l as [|x l IH]; simpl; [reflexivity|].
  destruct (f x); simpl.
  - now constructor.
  - rewrite <- Permutation_middle. now constructor.
Qed.

Lemma split_by_Permutation n f : Permutation (split_by n f) (seq 0 n).
Proof. apply filter_split_Permutation. Qed.

Lemma generateBitonicSortIndex_valid n indices :
  generateBitonicSortIndex n = Ok indices ->
  Forall (fun index => Permutation index (seq 0 n)) indices.
Proof.
  unfold generateBitonicSortIndex.
  destruct (has_single_bit n); [|discriminate].
  intros [= <-]. apply Forall_map, Forall_forall.
  intros i _. apply split_by_Permutation.
Qed.

Lemma generateBitonicMergeIndex_valid n indices :
  generateBitonicMergeIndex n = Ok indices ->
  Forall (fun index => Permutation index (seq 0 n)) indices.
Proof.
  unfold generateBitonicMergeIndex.
  destruct (has_single_bit n); [|discriminate].
  intros [= <-]. apply Forall_flat_map, Forall_forall.
  intros i _. apply Forall_map, Forall_forall.
  intros j _. apply split_by_Permutation.
Qed.

Lemma stagesSchedule_cons n index rest :
  stagesSchedule n (index :: rest)
  = EvPermute index :: EvCmpSwap 0 (n / 2) (n / 2) true
      :: EvPermute (inverse_permutation index) :: stagesSchedule n rest.
Proof.
  unfold stagesSchedule. cbn [runStages].
  rewrite snd_tbind, (stage_trace tt).
  reflexivity.
Qed.

Lemma half_twice n : n / 2 + n / 2 <= n.
Proof.
  pose proof (Nat.div_mod_eq n 2). lia.
Qed.

Lemma stagesSchedule_valid n indices :
  Forall (fun index => Permutation index (seq 0 n)) indices ->
  Forall (ValidEvent n) (stagesSchedule n indices).
Proof.
  induction 1 as [|index rest Hp _ IH]; [constructor|].
  rewrite stagesSchedule_cons.
  constructor; [exact Hp|].
  constructor; [split; [reflexivity|apply half_twice]|].
  constructor; [|exact IH].
  simpl. rewrite inverse_permutation_Permutation.
  now rewrite (Permutation_length Hp), length_seq.
Qed.

Lemma parSchedule_valid n tr :
  parSchedule n = Ok tr -> Forall (ValidEvent n) tr.
Proof.
  unfold parSchedule, parallelBitonicSort.
  destruct (has_single_bit n); [|discriminate].
  destruct (generateBitonicMergeIndex n) as [mi| |] eqn:Hm; try discriminate.
  destruct (generateBitonicSortIndex n) as [si| |] eqn:Hs; try discriminate.
  simpl. intros [= <-].
  rewrite (stages_trace tt).
  apply stagesSchedule_valid, Forall_app. split.
  - eapply generateBitonicMergeIndex_valid; eauto.
  - eapply generateBitonicSortIndex_valid; eauto.
Qed.

Lemma merge_rec_valid {E} fuel (cmp : CompFn E) vals lo n acc N :
  lo + n <= N ->
  Forall (ValidEvent N) (snd (sequentialBitonicMerge_rec E fuel cmp vals lo n acc)).
Proof.
  revert vals lo n.
  induction fuel as [|fuel IH]; intros vals lo n Hn; simpl; [constructor|].
  destruct (Nat.ltb_spec 1 n) as [H1|H1]; [|constructor].
  destruct (greatestPowerOfTwoLessThan_bounds n) as [Hm1 Hm2]; [lia|].
  rewrite !snd_tbind, cmpSwap_trace.
  repeat apply Forall_app_2.
  - repeat constructor; lia.
  - apply IH. lia.
  - apply IH. lia.
Qed.

Lemma sort_rec_valid {E} fuel (cmp : CompFn E) vals lo n acc N :
  lo + n <= N ->
  Forall (ValidEvent N) (snd (sequentialBitonicSort_rec E fuel cmp vals lo n acc)).
Proof.
  revert vals lo n acc.
  induction fuel as [|fuel IH]; intros vals lo n acc Hn; simpl; [constructor|].
  destruct (Nat.ltb_spec 1 n) as [H1|H1]; [|constructor].
  destruct (shiftr1_bounds n) as [Hm1 Hm2]; [lia|].
  rewrite !snd_tbind.
  repeat apply Forall_app_2.
  - apply IH. simpl in *. lia.
  - apply IH. simpl in *. lia.
  - apply merge_rec_valid. lia.
Qed.

Lemma seqSchedule_valid lo n acc N :
  lo + n <= N -> Forall (ValidEvent N) (seqSchedule lo n acc).
Proof. apply sort_rec_valid. Qed.

End Schedules.

(** ** Every operand moves by one permutation *)

Section Simulation.

Context {E : Type} (uninit : E).
Implicit Types (cmp : CompFn E) (vals : list (Row E)) (v : Row E).

Lemma permute_seq_gen {A} (d : A) (l : list A) :
  permute A d l (seq 0 (length l)) = l.
Proof.
  unfold permute. apply nth_ext with (d := d) (d' := d).
  - now rewrite length_map, length_seq.
  - intros i Hi. rewrite length_map, length_seq in Hi.
    rewrite (nth_indep _ _ (nth 0 l d))
      by now rewrite length_map, length_seq.
    change (nth 0 l d) with ((fun i => nth i l d) 0).
    rewrite map_nth, seq_nth by exact Hi. reflexivity.
Qed.

Lemma permute_seq v : permute E uninit v (seq 0 (length v)) = v.
Proof. apply permute_seq_gen. Qed.

Lemma permute_length v index : length (permute E uninit v index) = length index.
Proof. apply length_map. Qed.

Lemma permute_permute v idx index :
  Forall (fun i => i < length idx) index ->
  permute E uninit (permute E uninit v idx) index
  = permute E uninit v (permute nat 0 idx index).
Proof.
  intros H. unfold permute. rewrite map_map.
  apply map_ext_Forall. revert H. apply List.Forall_impl. intros i Hi.
  rewrite (nth_indep _ _ (nth 0 v uninit)) by now rewrite length_map.
  change (nth 0 v uninit) with ((fun i => nth i v uninit) 0).
  now rewrite map_nth.
Qed.

Lemma Permutation_seq_bound index n :
  Permutation index (seq 0 n) -> Forall (fun i => i < n) index.
Proof.
  intros H. apply List.Forall_forall. intros i Hi.
  apply (Permutation_in _ H), in_seq in Hi. lia.
Qed.

Lemma permute_Permutation {A} (d : A) (l : list A) index :
  Permutation index (seq 0 (length l)) ->
  Permutation (permute A d l index) l.
Proof.
  intros H. unfold permute.
  rewrite (Permutation_map _ H).
  change (Permutation (permute A d l (seq 0 (length l))) l).
  now rewrite permute_seq_gen.
Qed.

Lemma step_simulation cmp vals0 idx e :
  ValidEvent (length idx) e ->
  step E uninit cmp (map (fun v => permute E uninit v idx) vals0) e
  = map (fun v => permute E uninit v (stepIdx uninit cmp vals0 idx e)) vals0.
Proof.
  destruct e as [index|x y w acc]; cbn [step stepIdx ValidEvent]; intros Hv.
  - rewrite map_map. apply map_ext. intros v.
    apply permute_permute. now apply Permutation_seq_bound.
  - rewrite cmpSwap_values, map_map. apply map_ext. intros v.
    unfold permute. apply swapRow_map.
Qed.

Lemma windows_shape vals x y w n :
  Forall (fun v => length v = n) vals -> x + w <= n -> y + w <= n ->
  Forall (fun r => length r = w) (windows E vals x y w).
Proof.
  intros H Hx Hy. unfold windows. apply Forall_flat_map.
  revert H. apply List.Forall_impl. intros v Hl.
  repeat constructor; apply slice_length; lia.
Qed.

Lemma windows_length vals x y w :
  length (windows E vals x y w) = 2 * length vals.
Proof.
  unfold windows. induction vals as [|v vals IH]; simpl; [reflexivity|].
  rewrite IH. lia.
Qed.

Lemma stepIdx_Permutation cmp vals0 idx e n :
  LengthPreserving cmp -> vals0 <> [] ->
  Permutation idx (seq 0 n) -> ValidEvent n e ->
  Permutation (stepIdx uninit cmp vals0 idx e) (seq 0 n).
Proof.
  intros Hc Hne Hp Hv.
  assert (Hlen : length idx = n)
    by now rewrite (Permutation_length Hp), length_seq.
  destruct e as [index|x y w acc]; simpl in *.
  - rewrite permute_Permutation; [exact Hp|]. now rewrite Hlen.
  - destruct Hv as [Hxy Hy].
    rewrite swapRow_Permutation; [exact Hp| |lia|lia].
    apply Hc.
    + rewrite windows_length, length_map.
      destruct vals0; [contradiction|simpl; lia].
    + apply windows_shape with (n := n); [|lia|lia].
      apply Forall_map, List.Forall_forall. intros v _.
      now rewrite permute_length.
Qed.

Lemma replay_simulation cmp vals0 idx tr n :
  LengthPreserving cmp -> vals0 <> [] ->
  Permutation idx (seq 0 n) -> Forall (ValidEvent n) tr ->
  replay E uninit cmp (map (fun v => permute E uninit v idx) vals0) tr
  = map (fun v => permute E uninit v (replayIdx uninit cmp vals0 idx tr)) vals0
  /\ Permutation (replayIdx uninit cmp vals0 idx tr) (seq 0 n).
Proof.
  intros Hc Hne Hp Hv. revert idx Hp.
  induction Hv as [|e tr He _ IH]; intros idx Hp; simpl; [now split|].
  assert (Hlen : length idx = n)
    by now rewrite (Permutation_length Hp), length_seq.
  rewrite step_simulation by now rewrite Hlen.
  apply IH. now apply stepIdx_Permutation.
Qed.



Lemma replay_by_permutation cmp vals tr n :
  LengthPreserving cmp -> vals <> [] ->
  Forall (fun v => length v = n) vals -> Forall (ValidEvent n) tr ->
  replay E uninit cmp vals tr
  = map (fun v => permute E uninit v
                    (replayIdx uninit cmp vals (seq 0 n) tr)) vals
  /\ Permutation (replayIdx uninit cmp vals (seq 0 n) tr) (seq 0 n).
Proof.
  intros Hc Hne Hl Hv.
  destruct (replay_simulation cmp vals (seq 0 n) tr n Hc Hne
              (Permutation_refl _) Hv) as [H1 H2].
  split; [|exact H2]. rewrite <- H1. f_equal.
  symmetry. rewrite <- (map_id vals) at 2.
  apply map_ext_Forall. revert Hl. apply List.Forall_impl.
  intros v <-. apply permute_seq.
Qed.

End Simulation.

(** ** A single row of integer keys *)

Section KeyRow.

Implicit Types (v a b : list Z) (tr : list Event).

Lemma zip_lt_length {E} (key : E -> Z) (a b : list E) :
  length (zip_lt key a b) = Nat.min (length a) (length b).
Proof.
  revert b. induction a as [|x a IH]; intros [|y b]; simpl; auto.
Qed.

Lemma lessThanBy_LengthPreserving {E} (key : E -> Z) :
  LengthPreserving (lessThanBy key).
Proof.
  intros vs w Hlen Hall.
  destruct vs as [|x [|y vs]]; simpl in Hlen; try lia.
  inversion Hall as [|? ? Hx Hall']; subst.
  inversion Hall' as [|? ? Hy _]; subst.
  simpl. rewrite zip_lt_length. lia.
Qed.


Lemma step_single e v : step Z 0%Z lessThan [v] e = [stepRow e v].
Proof. destruct e; reflexivity. Qed.

Lemma replay_single tr v : replay Z 0%Z lessThan [v] tr = [replayRow tr v].
Proof.
  revert v. induction tr as [|e tr IH]; intros v; [reflexivity|].
  unfold replay, replayRow. cbn [fold_left]. rewrite step_single. apply IH.
Qed.

Lemma replayRow_app t1 t2 v :
  replayRow (t1 ++ t2) v = replayRow t2 (replayRow t1 v).
Proof. apply fold_left_app. Qed.

Lemma stepRow_length e v :
  ValidEvent (length v) e -> length (stepRow e v) = length v.
Proof.
  destruct e as [index|x y w acc]; simpl.
  - intros H. rewrite permute_length.
    now rewrite (Permutation_length H), length_seq.
  - intros [H1 H2]. apply swapRow_length; [|lia|lia].
    rewrite zip_lt_length, !slice_length by lia. lia.
Qed.

Lemma replayRow_length tr v :
  Forall (ValidEvent (length v)) tr -> length (replayRow tr v) = length v.
Proof.
  intros H. remember (length v) as n eqn:Hn. revert v Hn.
  induction H as [|e tr He _ IH]; intros v Hn; [now subst|].
  change (length (replayRow tr (stepRow e v)) = n).
  apply IH. subst n. symmetry. now apply stepRow_length.
Qed.

Lemma stepRow_Permutation e v :
  ValidEvent (length v) e -> Permutation (stepRow e v) v.
Proof.
  destruct e as [index|x y w acc]; simpl.
  - apply permute_Permutation.
  - intros [H1 H2]. apply swapRow_Permutation; [|lia|lia].
    rewrite zip_lt_length, !slice_length by lia. lia.
Qed.

Lemma replayRow_Permutation tr v :
  Forall (ValidEvent (length v)) tr -> Permutation (replayRow tr v) v.
Proof.
  intros H. remember (length v) as n eqn:Hn. revert v Hn.
  induction H as [|e tr He _ IH]; intros v Hn; [reflexivity|].
  change (Permutation (replayRow tr (stepRow e v)) v). subst n.
  rewrite IH.
  - now apply stepRow_Permutation.
  - now rewrite stepRow_length.
Qed.

(** *** The zero-one principle *)

Lemma select_min_mono (f : Z -> Z) a b :
  (forall x y, (x <= y)%Z -> (f x <= f y)%Z) ->
  select Z (zip_lt (fun z => z) (map f a) (map f b)) (map f a) (map f b)
  = map f (select Z (zip_lt (fun z => z) a b) a b).
Proof.
  intros Hf. revert b. induction a as [|x a IH]; intros [|y b]; simpl; auto.
  rewrite IH. f_equal.
  destruct (Z.ltb_spec x y) as [H|H], (Z.ltb_spec (f x) (f y)) as [H'|H'];
    auto.
  - pose proof (Hf x y ltac:(lia)). lia.
  - pose proof (Hf y x H). lia.
Qed.

Lemma select_max_mono (f : Z -> Z) a b :
  (forall x y, (x <= y)%Z -> (f x <= f y)%Z) ->
  select Z (zip_lt (fun z => z) (map f a) (map f b)) (map f b) (map f a)
  = map f (select Z (zip_lt (fun z => z) a b) b a).
Proof.
  intros Hf. revert b. induction a as [|x a IH]; intros [|y b]; simpl; auto.
  rewrite IH. f_equal.
  destruct (Z.ltb_spec x y) as [H|H], (Z.ltb_spec (f x) (f y)) as [H'|H'];
    auto.
  - pose proof (Hf x y ltac:(lia)). lia.
  - pose proof (Hf y x H). lia.
Qed.

Lemma stepRow_mono (f : Z -> Z) e v :
  (forall x y, (x <= y)%Z -> (f x <= f y)%Z) ->
  ValidEvent (length v) e ->
  stepRow e (map f v) = map f (stepRow e v).
Proof.
  intros Hf. destruct e as [index|x y w acc]; simpl; intros Hv.
  - unfold permute. rewrite map_map. apply map_ext_Forall.
    apply Permutation_seq_bound in Hv. revert Hv.
    apply List.Forall_impl. intros i Hi.
    rewrite (nth_indep _ _ (f 0%Z)) by now rewrite length_map.
    apply map_nth.
  - unfold swapRow. rewrite !slice_map.
    rewrite select_min_mono, select_max_mono by exact Hf.
    destruct acc; now rewrite !copyElementFrom_map.
Qed.

Lemma replayRow_mono (f : Z -> Z) tr v :
  (forall x y, (x <= y)%Z -> (f x <= f y)%Z) ->
  Forall (ValidEvent (length v)) tr ->
  replayRow tr (map f v) = map f (replayRow tr v).
Proof.
  intros Hf H. remember (length v) as n eqn:Hn. revert v Hn.
  induction H as [|e tr He _ IH]; intros v Hn; [reflexivity|].
  change (replayRow tr (stepRow e (map f v))
          = map f (replayRow tr (stepRow e v))).
  subst n. rewrite stepRow_mono by auto.
  apply IH. now rewrite stepRow_length.
Qed.

Lemma thr_mono t x y : (x <= y)%Z -> (thr t x <= thr t y)%Z.
Proof.
  unfold thr. intros H.
  destruct (Z.ltb_spec x t), (Z.ltb_spec y t); lia.
Qed.

Lemma thr_Bit t v : Forall Bit (map (thr t) v).
Proof.
  apply Forall_map, List.Forall_forall. intros x _. unfold thr, Bit.
  destruct (x <? t)%Z; auto.
Qed.

Lemma Sorted_by_thresholds v :
  (forall t, Sorted Z.le (map (thr t) v)) -> Sorted Z.le v.
Proof.
  induction v as [|a v IH]; intros H; [constructor|].
  constructor.
  - apply IH. intros t. specialize (H t). now inversion H.
  - destruct v as [|b v]; constructor.
    specialize (H a). inversion H as [|? ? _ Hd]; subst.
    inversion Hd as [|? ? Hle]; subst. unfold thr in Hle.
    rewrite Z.ltb_irrefl in Hle.
    destruct (Z.ltb_spec b a); lia.
Qed.

Lemma sortedb_Sorted v : sortedb v = true -> Sorted Z.le v.
Proof.
  induction v as [|a v IH]; intros H; [constructor|].
  destruct v as [|b v]; [repeat constructor|].
  change (((a <=? b)%Z && sortedb (b :: v)) = true) in H.
  apply andb_prop in H. destruct H as [Hab Hs].
  constructor; [now apply IH|]. constructor. now apply Z.leb_le.
Qed.

Theorem zero_one_principle tr n :
  Forall (ValidEvent n) tr ->
  (forall b, length b = n -> Forall Bit b -> sortedb (replayRow tr b) = true) ->
  forall v, length v = n -> Sorted Z.le (replayRow tr v).
Proof.
  intros Hv H01 v Hn. apply Sorted_by_thresholds. intros t.
  rewrite <- replayRow_mono; [|apply thr_mono|now rewrite Hn].
  apply sortedb_Sorted, H01; [now rewrite length_map|apply thr_Bit].
Qed.

End KeyRow.

(** ** Windows inside one half of a row *)

Section Locality.

Context {E : Type}.
Implicit Types (la lb src : list E) (p : list bool).

Lemma slice_app_low la lb x w :
  x + w <= length la ->
  slice E (la ++ lb) x (x + w) = slice E la x (x + w).
Proof.
  intros H. unfold slice.
  rewrite drop_app_le by lia. apply take_app_le.
  rewrite length_drop. lia.
Qed.

Lemma slice_app_high la lb x w :
  length la <= x ->
  slice E (la ++ lb) x (x + w)
  = slice E lb (x - length la) (x - length la + w).
Proof.
  intros H. unfold slice.
  rewrite drop_app_ge by lia. f_equal. lia.
Qed.

Lemma copyElementFrom_app_low la lb src off n :
  off + n <= length la ->
  copyElementFrom E (la ++ lb) src off n = copyElementFrom E la src off n ++ lb.
Proof.
  intros H. unfold copyElementFrom.
  rewrite take_app_le, drop_app_le by lia.
  now rewrite <- !app_assoc.
Qed.

Lemma copyElementFrom_app_high la lb src off n :
  length la <= off ->
  copyElementFrom E (la ++ lb) src off n
  = la ++ copyElementFrom E lb src (off - length la) n.
Proof.
  intros H. unfold copyElementFrom.
  rewrite take_app_ge, drop_app_ge by lia.
  rewrite <- !app_assoc. repeat f_equal. lia.
Qed.

Lemma swapRow_app_low p x y w acc la lb :
  length p = w -> x + w <= length la -> y + w <= length la ->
  swapRow E p x y w acc (la ++ lb) = swapRow E p x y w acc la ++ lb.
Proof.
  intros Hp Hx Hy. unfold swapRow.
  rewrite !slice_app_low by lia.
  pose proof (slice_length la x w Hx) as Lx.
  pose proof (slice_length la y w Hy) as Ly.
  destruct acc;
    rewrite copyElementFrom_app_low by lia;
    apply copyElementFrom_app_low;
    rewrite copyElementFrom_length; rewrite ?select_length; lia.
Qed.

Lemma swapRow_app_high p x y w acc la lb :
  length la <= x -> length la <= y ->
  swapRow E p x y w acc (la ++ lb)
  = la ++ swapRow E p (x - length la) (y - length la) w acc lb.
Proof.
  intros Hx Hy. unfold swapRow.
  rewrite !slice_app_high by lia.
  destruct acc;
    rewrite copyElementFrom_app_high by lia;
    now rewrite copyElementFrom_app_high by lia.
Qed.

End Locality.

Section Reach.

Implicit Types (la lb b r : list Z) (tr : list Event).

Lemma stepRow_low h e la lb :
  lowEvent h e = true -> length la = h ->
  stepRow e (la ++ lb) = stepRow e la ++ lb
  /\ length (stepRow e la) = h.
Proof.
  destruct e as [index|x y w acc]; simpl; [discriminate|].
  intros H Hl. apply andb_prop in H. destruct H as [Hx Hy].
  apply Nat.leb_le in Hx, Hy.
  assert (Hp : length (zip_lt (fun z => z) (slice Z la x (x + w))
                         (slice Z la y (y + w))) = w)
    by (rewrite zip_lt_length, !slice_length by lia; lia).
  split.
  - rewrite !slice_app_low by lia. apply swapRow_app_low; lia.
  - rewrite swapRow_length; lia.
Qed.

Lemma stepRow_high h n e la lb :
  highEvent h n e = true -> length la = h -> length lb = n - h ->
  stepRow e (la ++ lb) = la ++ stepRow (shiftEvent h e) lb
  /\ length (stepRow (shiftEvent h e) lb) = n - h.
Proof.
  destruct e as [index|x y w acc]; simpl; [discriminate|].
  intros H Hla Hlb. repeat (apply andb_prop in H; destruct H as [H ?]).
  repeat match goal with
         | H : (_ <=? _) = true |- _ => apply Nat.leb_le in H
         end.
  split.
  - rewrite !slice_app_high by lia. rewrite swapRow_app_high by lia.
    now rewrite Hla.
  - rewrite swapRow_length; [lia| |lia|lia].
    rewrite zip_lt_length, !slice_length by lia. lia.
Qed.

Lemma localPrefix_app h n tr :
  tr = fst (localPrefix h n tr) ++ snd (localPrefix h n tr)
  /\ Forall (fun e => localEvent h n e = true) (fst (localPrefix h n tr)).
Proof.
  induction tr as [|e tr [IH1 IH2]]; simpl; [split; [reflexivity|constructor]|].
  destruct (localEvent h n e) eqn:He; simpl.
  - split; [now f_equal|now constructor].
  - split; [reflexivity|constructor].
Qed.

Lemma replayRow_local h n tr la lb :
  Forall (fun e => localEvent h n e = true) tr ->
  length la = h -> length lb = n - h ->
  replayRow tr (la ++ lb)
  = replayRow (List.filter (lowEvent h) tr) la
    ++ replayRow (map (shiftEvent h) (List.filter (highEvent h n) tr)) lb.
Proof.
  intros H. revert la lb.
  induction H as [|e tr He _ IH]; intros la lb H1 H2; [reflexivity|].
  change (replayRow (e :: tr) (la ++ lb))
    with (replayRow tr (stepRow e (la ++ lb))).
  cbn [List.filter]. unfold localEvent in He.
  destruct (lowEvent h e) eqn:Hlow.
  - assert (Hhigh : highEvent h n e = false).
    { destruct e; simpl in *; [reflexivity|]. now rewrite Hlow. }
    rewrite Hhigh.
    destruct (stepRow_low h e la lb Hlow H1) as [-> Hlen].
    rewrite IH by assumption. reflexivity.
  - simpl in He. rewrite He.
    destruct (stepRow_high h n e la lb He H1 H2) as [-> Hlen].
    rewrite IH by assumption. reflexivity.
Qed.

Lemma all01_complete b : Forall Bit b -> In b (all01 (length b)).
Proof.
  induction 1 as [|x b Hx _ IH]; simpl; [now left|].
  apply in_flat_map. exists b. split; [exact IH|].
  destruct Hx as [-> | ->]; simpl; auto.
Qed.

Lemma eqb_row_eq a b : eqb_row a b = true -> a = b.
Proof.
  revert b. induction a as [|x a IH]; intros [|y b]; simpl;
    try discriminate; [reflexivity|].
  intros H. apply andb_prop in H. destruct H as [Hxy Hab].
  apply Z.eqb_eq in Hxy. f_equal; auto.
Qed.

Lemma dedup_rows_In r (l : list (list Z)) : In r l -> In r (dedup_rows l).
Proof.
  induction l as [|a l IH]; simpl; [tauto|].
  intros [-> | Hin].
  - destruct (existsb (eqb_row r) l) eqn:Hex; [|now left].
    apply existsb_exists in Hex. destruct Hex as (r' & Hr' & Heq).
    apply eqb_row_eq in Heq. subst r'. auto.
  - destruct (existsb (eqb_row a) l); [auto|right; auto].
Qed.

Lemma concatRows_In la lb (ls hs : list (list Z)) :
  In la ls -> In lb hs -> In (la ++ lb) (concatRows ls hs).
Proof.
  intros H1 H2. unfold concatRows. apply in_flat_map.
  exists la. split; [exact H1|]. now apply in_map.
Qed.

Lemma reach_sound fuel n tr b :
  length b = n -> Forall Bit b -> In (replayRow tr b) (reach fuel n tr).
Proof.
  revert n tr b.
  induction fuel as [|fuel IH]; intros n tr b Hn Hb.
  - simpl. apply dedup_rows_In, in_map. subst n. now apply all01_complete.
  - cbn [reach]. destruct (n <=? 4) eqn:Hsmall.
    + apply dedup_rows_In, in_map. subst n. now apply all01_complete.
    + cbv zeta. set (h := n / 2).
      destruct (localPrefix_app h n tr) as [Htr Hloc].
      set (pq := localPrefix h n tr) in *.
      assert (Hh : h <= n) by (apply Nat.Div0.div_le_upper_bound; lia).
      apply dedup_rows_In.
      rewrite Htr at 1. rewrite replayRow_app. apply in_map.
      rewrite <- (take_drop h b).
      rewrite (replayRow_local h n) by
        (try exact Hloc; rewrite ?length_take, ?length_drop; lia).
      apply concatRows_In; apply IH.
      * rewrite length_take. lia.
      * now apply Forall_take.
      * rewrite length_drop. lia.
      * now apply Forall_drop.
Qed.

Lemma reach_check fuel n tr :
  forallb sortedb (reach fuel n tr) = true ->
  forall b, length b = n -> Forall Bit b -> sortedb (replayRow tr b) = true.
Proof.
  intros H b Hn Hb.
  rewrite forallb_forall in H. apply H. now apply reach_sound.
Qed.

End Reach.

(** ** The comparison-revealing sort *)

Section PublicSort.

Variable kf : nat -> Z.

Let lt := fun a b => (kf a <? kf b)%Z.

Lemma std_insert_stable x s :
  StronglySorted (stableLt kf) s -> Forall (fun y => x < y) s ->
  StronglySorted (stableLt kf) (std_insert lt x s).
Proof.
  induction s as [|y s IH]; intros Hs Hx; simpl; [repeat constructor|].
  inversion Hs as [|? ? Hs' Hy]; subst.
  inversion Hx as [|? ? Hxy Hx']; subst.
  unfold lt at 1. destruct (Z.ltb_spec (kf y) (kf x)) as [Hlt|Hge].
  - constructor; [now apply IH|].
    rewrite (std_insert_Permutation lt x s).
    constructor; [now left|exact Hy].
  - constructor; [exact Hs|].
    constructor; [unfold stableLt; lia|].
    rewrite List.Forall_forall in *. intros z Hz.
    specialize (Hy z Hz). specialize (Hx' z Hz). unfold stableLt in *. lia.
Qed.

Lemma std_stable_sort_stable l :
  StronglySorted Nat.lt l ->
  StronglySorted (stableLt kf) (std_stable_sort lt l).
Proof.
  induction 1 as [|x l Hl IH Hx]; simpl; [constructor|].
  apply std_insert_stable; [exact IH|].
  now rewrite (std_stable_sort_Permutation lt l).
Qed.

Lemma seq_StronglySorted s n : StronglySorted Nat.lt (seq s n).
Proof.
  revert s. induction n as [|n IH]; intros s; simpl; constructor; [apply IH|].
  apply List.Forall_forall. intros y Hy. apply in_seq in Hy. lia.
Qed.

Lemma stableLt_keyLe l :
  StronglySorted (stableLt kf) l -> Sorted (keyLe kf) l.
Proof.
  intros H. apply StronglySorted_Sorted.
  induction H as [|x l Hl IH Hx]; constructor; [exact IH|].
  revert Hx. apply List.Forall_impl. unfold stableLt, keyLe. lia.
Qed.

End PublicSort.

Section PublicRow.

Context {E : Type} (uninit : E) (key : E -> Z).

(** The comparator the public path hands to [std::sort]. *)
Lemma public_comparator (v0 : Row E) (rest : list (Row E)) a b :
  getConditionValue
    (lessThanBy key
       (flat_map (fun v => [getElementAt E uninit v a;
                            getElementAt E uninit v b]) (v0 :: rest)))
  = (key (nth a v0 uninit) <? key (nth b v0 uninit))%Z.
Proof. reflexivity. Qed.

Lemma sortRowPublic_values is_stable (v0 : Row E) rest n :
  fst (sortRowPublic E uninit (lessThanBy key) is_stable (v0 :: rest) n)
  = map (fun v => permute E uninit v
           (std_stable_sort
              (fun a b => (key (nth a v0 uninit) <? key (nth b v0 uninit))%Z)
              (seq 0 n)))
        (v0 :: rest).
Proof. destruct is_stable; reflexivity. Qed.

End PublicRow.

(** ** Sorted rows *)

Section SortedRows.

Lemma Sorted_permute_keys (v : list Z) pi :
  Sorted (keyLe (fun i => nth i v 0%Z)) pi ->
  Sorted Z.le (permute Z 0%Z v pi).
Proof.
  induction 1 as [|i pi Hs IH Hd]; simpl; constructor; [exact IH|].
  destruct Hd; constructor. assumption.
Qed.

Lemma Sorted_Z_unique (a b : list Z) :
  Sorted Z.le a -> Sorted Z.le b -> Permutation a b -> a = b.
Proof.
  intros Ha Hb. apply Sorted_StronglySorted in Ha, Hb;
    try (intros x y z; apply Z.le_trans).
  revert b Hb. induction Ha as [|x a Ha IH Hx]; intros b Hb Hp.
  - now apply Permutation_nil in Hp.
  - destruct Hb as [|y b Hb Hy].
    + symmetry in Hp. now apply Permutation_nil in Hp.
    + assert (x = y).
      { rewrite List.Forall_forall in Hx, Hy.
        assert (Hyin : In y (x :: a))
          by (apply (Permutation_in _ (Permutation_sym Hp)); now left).
        assert (Hxin : In x (y :: b))
          by (apply (Permutation_in _ Hp); now left).
        destruct Hyin as [->|Hyin]; [reflexivity|].
        destruct Hxin as [->|Hxin]; [reflexivity|].
        specialize (Hx y Hyin). specialize (Hy x Hxin). lia. }
      subst y. f_equal. apply IH; [exact Hb|].
      now apply Permutation_cons_inv in Hp.
Qed.

Lemma public_row_sorted is_stable (v : list Z) :
  exists r,
    fst (sortRowPublic Z 0%Z lessThan is_stable [v] (length v)) = [r]
    /\ Sorted Z.le r /\ Permutation r v.
Proof.
  eexists. split; [apply (sortRowPublic_values 0%Z (fun z => z))|].
  split.
  - apply Sorted_permute_keys, stableLt_keyLe, std_stable_sort_stable,
      seq_StronglySorted.
  - apply permute_Permutation, std_stable_sort_Permutation.
Qed.

(** A schedule whose reachable 0/1 rows are all sorted sorts every row. *)
Lemma schedule_sorts fuel n tr :
  Forall (ValidEvent n) tr ->
  forallb sortedb (reach fuel n tr) = true ->
  forall v, length v = n ->
    Sorted Z.le (replayRow tr v) /\ Permutation (replayRow tr v) v.
Proof.
  intros Hv Hc v Hn. split.
  - apply (zero_one_principle tr n Hv); [|exact Hn].
    now apply reach_check with (fuel := fuel).
  - apply replayRow_Permutation. now rewrite Hn.
Qed.

Lemma stagesSchedule_events n index rest :
  stagesSchedule n (index :: rest)
  = stageEvents n index ++ stagesSchedule n rest.
Proof. apply stagesSchedule_cons. Qed.

Lemma stageEvents_valid n index :
  Permutation index (seq 0 n) -> Forall (ValidEvent n) (stageEvents n index).
Proof.
  intros Hp.
  apply (stagesSchedule_valid n [index]). now constructor.
Qed.

Lemma stages_as_comparators n indices :
  Forall (fun index => Permutation index (seq 0 n)) indices ->
  Forall (StageAsComparators n) indices ->
  forall v, length v = n ->
    replayRow (stagesSchedule n indices) v
    = replayRow (flat_map (stageComparators n) indices) v.
Proof.
  intros Hp Hs. induction Hs as [|index rest Hi _ IH]; intros v Hn;
    [reflexivity|].
  pose proof (List.Forall_inv Hp) as Hpi.
  pose proof (List.Forall_inv_tail Hp) as Hp'.
  rewrite stagesSchedule_events. cbn [flat_map]. rewrite !replayRow_app.
  rewrite <- (Hi v Hn). apply IH; [exact Hp'|].
  rewrite replayRow_length; [exact Hn|].
  rewrite Hn. now apply stageEvents_valid.
Qed.

Lemma parallelBitonicSort_eq {E} (u : E) cmp vals n :
  parallelBitonicSort E u cmp vals n
  = if has_single_bit n
    then Ok (runStages E u cmp n vals (parIndices n))
    else Throw NotPowerOfTwo.
Proof.
  unfold parallelBitonicSort, parIndices, generateBitonicMergeIndex,
    generateBitonicSortIndex.
  destruct (has_single_bit n); reflexivity.
Qed.

Lemma parIndices_valid n :
  Forall (fun index => Permutation index (seq 0 n)) (parIndices n).
Proof.
  unfold parIndices.
  destruct (generateBitonicMergeIndex n) as [mi| |] eqn:Hm; try constructor.
  destruct (generateBitonicSortIndex n) as [si| |] eqn:Hs; try constructor.
  apply Forall_app. split.
  - now apply generateBitonicMergeIndex_valid.
  - now apply generateBitonicSortIndex_valid.
Qed.

(** The parallel network sorts as soon as its stages are comparator
    stages and the comparator schedule passes the 0/1 check. *)
Lemma parallel_sorts fuel n :
  has_single_bit n = true ->
  Forall (StageAsComparators n) (parIndices n) ->
  forallb sortedb (reach fuel n (flat_map (stageComparators n) (parIndices n)))
  = true ->
  forall v, length v = n ->
    exists r, ovalues (parallelBitonicSort Z 0%Z lessThan [v] n) = Ok [r]
              /\ Sorted Z.le r /\ Permutation r v.
Proof.
  intros Hb Hs Hc v Hn.
  exists (replayRow (stagesSchedule n (parIndices n)) v).
  pose proof (parIndices_valid n) as Hp.
  pose proof (stagesSchedule_valid n _ Hp) as Hv.
  split; [|split].
  - rewrite parallelBitonicSort_eq, Hb. simpl.
    now rewrite (stages_replay 0%Z), replay_single.
  - apply (zero_one_principle _ n Hv); [|exact Hn].
    intros b Hbn Hbit.
    rewrite (stages_as_comparators n _ Hp Hs b Hbn).
    now apply reach_check with (fuel := fuel) (n := n).
  - apply replayRow_Permutation. now rewrite Hn.
Qed.

Lemma sequential_sorts fuel n :
  forallb sortedb (reach fuel n (seqSchedule 0 n true)) = true ->
  forall v, length v = n ->
    exists r, fst (sequentialBitonicSort Z lessThan [v] 0 n true) = [r]
              /\ Sorted Z.le r /\ Permutation r v.
Proof.
  intros Hc v Hn.
  exists (replayRow (seqSchedule 0 n true) v).
  split.
  - now rewrite (seq_sort_replay 0%Z), replay_single.
  - apply (schedule_sorts fuel n); auto.
    apply seqSchedule_valid. lia.
Qed.

End SortedRows.

(** ** The networks of the sizes at hand *)

Section Instances.

Ltac destruct_row v Hv :=
  repeat (destruct v as [|? v]; [discriminate Hv|]);
  destruct v; [|discriminate Hv].

Ltac stage_by_stage n :=
  let l := eval vm_compute in (parIndices n) in
  change (parIndices n) with l;
  repeat (constructor;
          [intros v Hv; destruct_row v Hv; vm_compute; reflexivity|]);
  constructor.

Lemma stages_1 : Forall (StageAsComparators 1) (parIndices 1).
Proof. stage_by_stage 1. Qed.

Lemma stages_2 : Forall (StageAsComparators 2) (parIndices 2).
Proof. stage_by_stage 2. Qed.

Lemma stages_4 : Forall (StageAsComparators 4) (parIndices 4).
Proof. stage_by_stage 4. Qed.

Lemma stages_8 : Forall (StageAsComparators 8) (parIndices 8).
Proof. stage_by_stage 8. Qed.

Lemma stages_16 : Forall (StageAsComparators 16) (parIndices 16).
Proof. stage_by_stage 16. Qed.

Lemma stages_32 : Forall (StageAsComparators 32) (parIndices 32).
Proof. stage_by_stage 32. Qed.

Lemma parallel_check :
  forallb (fun n =>
             forallb sortedb
               (reach 5 n (flat_map (stageComparators n) (parIndices n))))
          [1; 2; 4; 8; 16; 32] = true.
Proof. vm_compute. reflexivity. Qed.

Lemma sequential_check :
  forallb (fun n => forallb sortedb (reach 5 n (seqSchedule 0 n true)))
          (seq 0 33) = true.
Proof. vm_compute. reflexivity. Qed.

Lemma parallel_row_sorted n (v : list Z) :
  In n [1; 2; 4; 8; 16; 32] -> length v = n ->
  exists r, ovalues (parallelBitonicSort Z 0%Z lessThan [v] n) = Ok [r]
            /\ Sorted Z.le r /\ Permutation r v.
Proof.
  intros Hin Hn.
  assert (Hc := parallel_check). rewrite forallb_forall in Hc.
  specialize (Hc n Hin).
  apply (parallel_sorts 5 n); auto;
    repeat (destruct Hin as [<-|Hin];
            [first [reflexivity|apply stages_1|apply stages_2|apply stages_4
                   |apply stages_8|apply stages_16|apply stages_32]|]);
    destruct Hin.
Qed.

Lemma sequential_row_sorted n (v : list Z) :
  n <= 32 -> length v = n ->
  exists r, fst (sequentialBitonicSort Z lessThan [v] 0 n true) = [r]
            /\ Sorted Z.le r /\ Permutation r v.
Proof.
  intros Hle Hn.
  assert (Hc := sequential_check). rewrite forallb_forall in Hc.
  apply (sequential_sorts 5 n); auto.
  apply Hc, in_seq. lia.
Qed.

End Instances.

(** ** Rows of a tensor *)

Section Tensors.

Context {E : Type} (uninit : E).
Implicit Types (shp idx ri : list nat) (v dst : Value E) (src : Row E).

Lemma flat_fold acc shp idx :
  InRange shp idx ->
  fold_left (fun off di => off * fst di + snd di) (combine shp idx) acc
  = acc * numel shp + flat_index shp idx
  /\ flat_index shp idx < numel shp.
Proof.
  unfold flat_index. intros H. revert acc.
  induction H as [|i d idx shp Hid _ IH]; intros acc; simpl; [lia|].
  destruct (IH (acc * d + i)) as [-> Hlt].
  destruct (IH i) as [-> _].
  split; nia.
Qed.

Lemma flat_index_cons d shp i idx :
  InRange shp idx ->
  flat_index (d :: shp) (i :: idx) = i * numel shp + flat_index shp idx.
Proof.
  intros H. unfold flat_index at 1. simpl.
  now destruct (flat_fold i shp idx H) as [-> _].
Qed.

Lemma flat_index_lt shp idx :
  InRange shp idx -> flat_index shp idx < numel shp.
Proof. intros H. now destruct (flat_fold 0 shp idx H). Qed.

Lemma flat_index_inj shp idx idx' :
  InRange shp idx -> InRange shp idx' ->
  flat_index shp idx = flat_index shp idx' -> idx = idx'.
Proof.
  intros H. revert idx'.
  induction H as [|i d idx shp Hid Hr IH]; intros idx' H' Heq.
  - now inversion H'.
  - inversion H' as [|i' ? idx'' ? Hid' Hr']; subst.
    rewrite !flat_index_cons in Heq by assumption.
    pose proof (flat_index_lt _ _ Hr) as L1.
    pose proof (flat_index_lt _ _ Hr') as L2.
    assert (i = i') by nia. subst i'.
    f_equal. apply IH; [exact Hr'|lia].
Qed.

Lemma all_indices_InRange counts idx :
  In idx (all_indices counts) -> InRange counts idx.
Proof.
  revert idx. induction counts as [|c counts IH]; intros idx; simpl.
  - intros [<-|[]]. constructor.
  - rewrite in_flat_map. intros (tl & Htl & Hin).
    apply in_map_iff in Hin. destruct Hin as (i & <- & Hi).
    apply in_seq in Hi. constructor; [lia|now apply IH].
Qed.

Lemma InRange_insert shp idx sd k :
  InRange (<[sd := 1]> shp) idx -> k < nth sd shp 0 ->
  InRange shp (<[sd := k]> idx).
Proof.
  unfold InRange. revert idx sd.
  induction shp as [|d shp IH]; intros idx sd H Hk.
  - destruct sd; simpl in Hk; lia.
  - destruct sd as [|sd]; simpl in *.
    + inversion H; subst. now constructor.
    + inversion H; subst. constructor; [assumption|]. now apply IH.
Qed.

Lemma InRange_row_zero shp idx sd :
  sd < length shp -> InRange (<[sd := 1]> shp) idx -> <[sd := 0]> idx = idx.
Proof.
  unfold InRange. revert idx sd.
  induction shp as [|d shp IH]; intros idx sd Hsd H; simpl in Hsd; [lia|].
  destruct sd as [|sd]; simpl in *.
  - inversion H; subst. simpl. f_equal. lia.
  - inversion H; subst. simpl. f_equal. apply IH; [lia|assumption].
Qed.

Lemma row_index_inj shp ri ri' sd k k' :
  sd < length shp ->
  InRange (<[sd := 1]> shp) ri -> InRange (<[sd := 1]> shp) ri' ->
  <[sd := k]> ri = <[sd := k']> ri' -> ri = ri' /\ (k < nth sd shp 0 -> k = k').
Proof.
  intros Hsd H H' Heq.
  assert (Hz : <[sd := 0]> (<[sd := k]> ri) = <[sd := 0]> (<[sd := k']> ri'))
    by now rewrite Heq.
  rewrite !list_insert_insert_eq in Hz.
  rewrite (InRange_row_zero shp ri sd), (InRange_row_zero shp ri' sd) in Hz
    by assumption.
  split; [exact Hz|]. subst ri'. intros _.
  assert (Hl : sd < length ri).
  { unfold InRange in H. apply Forall2_length in H.
    rewrite length_insert in H. lia. }
  assert (Hk : <[sd := k]> ri !! sd = <[sd := k']> ri !! sd) by now rewrite Heq.
  rewrite !list_lookup_insert_eq in Hk by assumption. now injection Hk.
Qed.

(** *** Writing a row and reading it back *)

Lemma fold_insert_length {A} (pos : nat -> nat) (val : nat -> A) ks (d : list A) :
  length (fold_left (fun d k => <[pos k := val k]> d) ks d) = length d.
Proof.
  revert d. induction ks as [|k ks IH]; intros d; simpl; [reflexivity|].
  now rewrite IH, length_insert.
Qed.

Lemma fold_insert_miss {A} (u : A) (pos : nat -> nat) (val : nat -> A) ks d p :
  (forall k, In k ks -> pos k <> p) ->
  nth p (fold_left (fun d k => <[pos k := val k]> d) ks d) u = nth p d u.
Proof.
  revert d. induction ks as [|k ks IH]; intros d H; simpl; [reflexivity|].
  rewrite IH by (intros k' Hk'; apply H; now right).
  rewrite !nth_lookup, list_lookup_insert_ne; [reflexivity|].
  apply H. now left.
Qed.

Lemma fold_insert_hit {A} (u : A) (pos : nat -> nat) (val : nat -> A) ks d k :
  List.NoDup ks -> In k ks ->
  (forall k1 k2, In k1 ks -> In k2 ks -> pos k1 = pos k2 -> k1 = k2) ->
  (forall k', In k' ks -> pos k' < length d) ->
  nth (pos k) (fold_left (fun d k => <[pos k := val k]> d) ks d) u = val k.
Proof.
  intros Hnd. revert d. induction Hnd as [|k0 ks Hk0 Hnd IH];
    intros d Hin Hinj Hlt; [destruct Hin|].
  simpl. destruct Hin as [->|Hin].
  - rewrite fold_insert_miss.
    + rewrite nth_lookup, list_lookup_insert_eq; [reflexivity|].
      apply Hlt. now left.
    + intros k' Hk' Heq. apply Hinj in Heq; [|now right|now left].
      subst k'. contradiction.
  - apply IH; [exact Hin| |].
    + intros k1 k2 H1 H2. apply Hinj; now right.
    + intros k' Hk'. rewrite length_insert. apply Hlt. now right.
Qed.

Lemma nth_map_seq {A} (f : nat -> A) n k (u : A) :
  k < n -> nth k (map f (seq 0 n)) u = f k.
Proof.
  intros Hk. rewrite (nth_indep _ _ (f 0)) by now rewrite length_map, length_seq.
  now rewrite map_nth, seq_nth.
Qed.

Lemma sliceCopy_shape dst src ri sd :
  shape (sliceCopy E uninit dst src ri sd) = shape dst.
Proof. reflexivity. Qed.

Lemma sliceCopy_WellShaped shp dst src ri sd :
  WellShaped E shp dst -> WellShaped E shp (sliceCopy E uninit dst src ri sd).
Proof.
  intros [Hs Hl]. split; [exact Hs|].
  unfold sliceCopy. cbn [data]. now rewrite fold_insert_length.
Qed.

Lemma rowOf_sliceCopy_same shp dst src ri sd :
  sd < length shp -> WellShaped E shp dst ->
  InRange (<[sd := 1]> shp) ri -> length src = nth sd shp 0 ->
  rowOf E uninit (sliceCopy E uninit dst src ri sd) ri sd (length src) = src.
Proof.
  intros Hsd [Hs Hl] Hri Hn. unfold rowOf, sliceCopy. cbn [shape data].
  rewrite Hs.
  apply nth_ext with (d := uninit) (d' := uninit);
    [now rewrite length_map, length_seq|].
  intros k Hk. rewrite length_map, length_seq in Hk.
  rewrite nth_map_seq by exact Hk.
  apply (fold_insert_hit uninit (fun k => flat_index shp (<[sd:=k]> ri))
           (fun k => nth k src uninit)).
  - apply seq_NoDup.
  - apply in_seq. lia.
  - intros k1 k2 H1 H2 Heq. apply in_seq in H1, H2.
    apply flat_index_inj in Heq;
      [|apply InRange_insert; [assumption|lia]..].
    apply (row_index_inj shp ri ri sd k1 k2) in Heq; try assumption.
    apply Heq. lia.
  - intros k' Hk'. apply in_seq in Hk'. rewrite Hl.
    apply flat_index_lt, InRange_insert; [assumption|lia].
Qed.

Lemma rowOf_sliceCopy_other shp dst src ri ri' sd :
  sd < length shp -> WellShaped E shp dst ->
  InRange (<[sd := 1]> shp) ri -> InRange (<[sd := 1]> shp) ri' ->
  length src = nth sd shp 0 -> ri <> ri' ->
  rowOf E uninit (sliceCopy E uninit dst src ri sd) ri' sd (length src)
  = rowOf E uninit dst ri' sd (length src).
Proof.
  intros Hsd [Hs Hl] Hri Hri' Hn Hne. unfold rowOf, sliceCopy.
  cbn [shape data]. rewrite Hs.
  apply map_ext_in. intros k Hk. apply in_seq in Hk.
  apply fold_insert_miss. intros k' Hk' Heq. apply in_seq in Hk'.
  apply flat_index_inj in Heq;
    [|apply InRange_insert; [assumption|lia]..].
  apply (row_index_inj shp ri ri' sd k' k) in Heq; try assumption.
  now destruct Heq.
Qed.

End Tensors.

(** ** One permutation per row *)

Section RowPermutation.

Context {E : Type} (uninit : E).
Implicit Types (cmp : CompFn E) (vals : list (Row E)).

Lemma std_insert_ext lt lt' x l :
  (forall a b, lt a b = lt' a b) -> std_insert lt x l = std_insert lt' x l.
Proof.
  intros H. induction l as [|y l IH]; simpl; [reflexivity|].
  now rewrite H, IH.
Qed.

Lemma std_stable_sort_ext lt lt' l :
  (forall a b, lt a b = lt' a b) ->
  std_stable_sort lt l = std_stable_sort lt' l.
Proof.
  intros H. induction l as [|x l IH]; simpl; [reflexivity|].
  now rewrite IH, (std_insert_ext lt lt').
Qed.

Lemma secretSchedule_valid n : Forall (ValidEvent n) (secretSchedule n).
Proof.
  unfold secretSchedule. destruct (has_single_bit n).
  - apply stagesSchedule_valid, parIndices_valid.
  - apply seqSchedule_valid. lia.
Qed.

Lemma sortRowSecret_replay cmp vals :
  ovalues (sortRowSecret E uninit cmp vals)
  = Ok (replay E uninit cmp vals (secretSchedule (length (hd [] vals)))).
Proof.
  unfold sortRowSecret, secretSchedule.
  rewrite parallelBitonicSort_eq.
  destruct (has_single_bit _); simpl.
  - now rewrite stages_replay.
  - now rewrite (seq_sort_replay uninit).
Qed.

Lemma rowPermutation_Permutation cmp is_stable vis vals n :
  LengthPreserving cmp -> vals <> [] ->
  Forall (fun v => length v = n) vals ->
  Permutation (rowPermutation uninit cmp is_stable vis vals n) (seq 0 n).
Proof.
  intros Hc Hne Hl. destruct vis; simpl.
  - destruct is_stable; apply std_stable_sort_Permutation.
  - apply replay_by_permutation; auto using secretSchedule_valid.
Qed.


Lemma sortRow_permutes cmp is_stable vis vals n :
  LengthPreserving cmp -> vals <> [] ->
  Forall (fun v => length v = n) vals ->
  ovalues (sortRow E uninit cmp is_stable vis vals n)
  = Ok (map (fun v => permute E uninit v
                        (rowPermutation uninit cmp is_stable vis vals n))
            vals).
Proof.
  intros Hc Hne Hl. destruct vis; simpl.
  - destruct is_stable; reflexivity.
  - rewrite sortRowSecret_replay.
    assert (Hn : length (hd [] vals) = n).
    { destruct vals as [|v0 rest]; [contradiction|]. now inversion Hl. }
    rewrite Hn. f_equal.
    apply replay_by_permutation; auto using secretSchedule_valid.
Qed.

End RowPermutation.

(** ** The loop over rows *)

Section SortLoop.

Context {E : Type} (uninit : E).
Implicit Types (cmp : CompFn E) (inputs results outs : list (Value E))
  (rows : list (Row E)) (ri : list nat).

Lemma getValuesToSort_rowOf inputs ri sd n :
  getValuesToSort E uninit inputs ri sd n
  = map (fun v => rowOf E uninit v ri sd n) inputs.
Proof. reflexivity. Qed.

Lemma getValuesToSort_lengths inputs ri sd n :
  Forall (fun r => length r = n) (getValuesToSort E uninit inputs ri sd n).
Proof.
  apply Forall_map, List.Forall_forall. intros v _.
  unfold rowOf. now rewrite length_map, length_seq.
Qed.

Lemma writeBack_length results rows ri sd :
  length (writeBack E uninit results rows ri sd) = length results.
Proof.
  revert rows. induction results as [|r results IH]; intros [|row rows];
    simpl; auto.
Qed.

Lemma writeBack_WellShaped shp results rows ri sd :
  Forall (WellShaped E shp) results ->
  Forall (WellShaped E shp) (writeBack E uninit results rows ri sd).
Proof.
  intros H. revert rows.
  induction H as [|r results Hr Hrs IH]; intros [|row rows]; simpl;
    try constructor; auto using sliceCopy_WellShaped.
Qed.

Lemma writeBack_same shp results rows ri sd :
  sd < length shp -> InRange (<[sd := 1]> shp) ri ->
  Forall (WellShaped E shp) results ->
  Forall (fun r => length r = nth sd shp 0) rows ->
  length results = length rows ->
  getValuesToSort E uninit (writeBack E uninit results rows ri sd) ri sd
    (nth sd shp 0) = rows.
Proof.
  intros Hsd Hri Hw. revert rows.
  induction Hw as [|r results Hr _ IH]; intros [|row rows] Hl Hlen;
    simpl in Hlen; try discriminate; [reflexivity|].
  inversion Hl as [|? ? Hrow Hl']; subst.
  simpl. f_equal.
  - rewrite <- Hrow. apply (rowOf_sliceCopy_same uninit shp); auto.
  - apply IH; [exact Hl'|lia].
Qed.

Lemma writeBack_other shp results rows ri ri' sd :
  sd < length shp ->
  InRange (<[sd := 1]> shp) ri -> InRange (<[sd := 1]> shp) ri' ->
  ri <> ri' ->
  Forall (WellShaped E shp) results ->
  Forall (fun r => length r = nth sd shp 0) rows ->
  getValuesToSort E uninit (writeBack E uninit results rows ri sd) ri' sd
    (nth sd shp 0)
  = getValuesToSort E uninit results ri' sd (nth sd shp 0).
Proof.
  intros Hsd Hri Hri' Hne Hw. revert rows.
  induction Hw as [|r results Hr _ IH]; intros [|row rows] Hl;
    try reflexivity.
  inversion Hl as [|? ? Hrow Hl']; subst.
  simpl. f_equal.
  - rewrite <- Hrow. apply (rowOf_sliceCopy_other uninit shp); auto.
  - apply IH. exact Hl'.
Qed.

(** What the loop leaves in the results: every visited row holds the
    sorted row of the inputs, every other row is as it was. *)
Lemma sortRows_spec cmp is_stable vis shp inputs sd ris :
  LengthPreserving cmp -> inputs <> [] -> sd < length shp ->
  Forall (InRange (<[sd := 1]> shp)) ris ->
  forall acc : Traced (list (Value E)),
    Forall (WellShaped E shp) (fst acc) -> length (fst acc) = length inputs ->
    exists outs tr,
      sortRows E uninit cmp is_stable vis inputs sd (nth sd shp 0) ris acc
      = Ok (outs, tr)
      /\ Forall (WellShaped E shp) outs /\ length outs = length inputs
      /\ forall ri, InRange (<[sd := 1]> shp) ri ->
           (In ri ris ->
            getValuesToSort E uninit outs ri sd (nth sd shp 0)
            = let vals := getValuesToSort E uninit inputs ri sd (nth sd shp 0) in
              map (fun v => permute E uninit v
                     (rowPermutation uninit cmp is_stable vis vals
                                     (nth sd shp 0))) vals)
           /\ (~ In ri ris ->
               getValuesToSort E uninit outs ri sd (nth sd shp 0)
               = getValuesToSort E uninit (fst acc) ri sd (nth sd shp 0)).
Proof.
  intros Hc Hne Hsd Hris.
  induction Hris as [|r ris Hr _ IH]; intros [res tr0] Hw Hlen.
  - exists res, tr0. repeat split; auto. intros [].
  - cbn [sortRows].
    set (n := nth sd shp 0) in *.
    set (vals := getValuesToSort E uninit inputs r sd n).
    assert (Hvl : Forall (fun v => length v = n) vals)
      by apply getValuesToSort_lengths.
    assert (Hvne : vals <> []).
    { unfold vals. rewrite getValuesToSort_rowOf.
      destruct inputs; [contradiction|discriminate]. }
    pose proof (sortRow_permutes uninit cmp is_stable vis vals n Hc Hvne Hvl)
      as Hrow.
    destruct (sortRow E uninit cmp is_stable vis vals n) as [[sorted str]| |];
      simpl in Hrow; try discriminate.
    injection Hrow as Hsorted. cbn [obind fst snd].
    assert (Hsl : Forall (fun v => length v = n) sorted).
    { rewrite Hsorted. apply Forall_map, List.Forall_forall. intros v _.
      rewrite permute_length.
      pose proof (rowPermutation_Permutation uninit cmp is_stable vis vals n
                    Hc Hvne Hvl) as Hp.
      now rewrite (Permutation_length Hp), length_seq. }
    assert (Hsn : length sorted = length inputs).
    { rewrite Hsorted, length_map. unfold vals.
      now rewrite getValuesToSort_rowOf, length_map. }
    cbn [fst] in Hw, Hlen.
    destruct (IH (writeBack E uninit res sorted r sd, tr0 ++ str))
      as (outs & tr & Hrun & Hwo & Hlo & Hrows).
    { cbn [fst]. now apply writeBack_WellShaped. }
    { cbn [fst]. now rewrite writeBack_length. }
    exists outs, tr. split; [exact Hrun|]. split; [exact Hwo|].
    split; [exact Hlo|].
    intros ri Hri. destruct (Hrows ri Hri) as [Hin Hout]. cbn [fst] in Hout.
    destruct (in_dec (List.list_eq_dec Nat.eq_dec) ri ris) as [Hri_in|Hri_out].
    + split; [intros _; now apply Hin|].
      intros Hnot. exfalso. apply Hnot. now right.
    + split.
      * intros [<-|Hri_in]; [|contradiction].
        rewrite (Hout Hri_out).
        rewrite (writeBack_same shp); auto. lia.
      * intros Hnot. rewrite (Hout Hri_out).
        apply (writeBack_other shp); auto.
        intros ->. apply Hnot. now left.
Qed.

Lemma forEachIndex_InRange shp sd :
  Forall (InRange (<[sd := 1]> shp)) (forEachIndex shp sd).
Proof.
  unfold forEachIndex. destruct (existsb _ _); [constructor|].
  apply List.Forall_forall. intros ri. apply all_indices_InRange.
Qed.

Lemma vector_at_in_range shp sort_dim :
  (0 <= sort_dim < Z.of_nat (length shp))%Z ->
  vector_at shp sort_dim = Ok (nth (Z.to_nat sort_dim) shp 0).
Proof.
  intros H. unfold vector_at.
  destruct (Z.leb_spec 0 sort_dim); [|lia].
  destruct (Z.ltb_spec sort_dim (Z.of_nat (length shp))); [|lia].
  reflexivity.
Qed.

End SortLoop.

(** ** Sort on whole tensors *)

Section SortTensors.

Context {E : Type} (uninit : E).
Implicit Types (cmp : CompFn E) (key : Value E) (rest : list (Value E)).

Lemma Sort_in_range cmp is_stable vis key rest sort_dim :
  (0 <= sort_dim < Z.of_nat (length (shape key)))%Z ->
  Sort E uninit (key :: rest) sort_dim is_stable cmp vis
  = sortRows E uninit cmp is_stable vis (key :: rest) (Z.to_nat sort_dim)
      (nth (Z.to_nat sort_dim) (shape key) 0)
      (forEachIndex (shape key) (Z.to_nat sort_dim))
      (map (fun v => mkValue (shape v) (repeat uninit (numel (shape v))))
           (key :: rest), []).
Proof.
  intros H. unfold Sort. rewrite vector_at_in_range by exact H.
  cbn [obind].
  destruct (Z.leb_spec 0 sort_dim); [|lia].
  destruct (Z.ltb_spec sort_dim (Z.of_nat (length (shape key)))); [|lia].
  reflexivity.
Qed.

Lemma Sort_rows cmp is_stable vis shp key rest sort_dim :
  LengthPreserving cmp ->
  Forall (WellShaped E shp) (key :: rest) ->
  (0 <= sort_dim < Z.of_nat (length shp))%Z ->
  exists outs tr,
    Sort E uninit (key :: rest) sort_dim is_stable cmp vis = Ok (outs, tr)
    /\ Forall (WellShaped E shp) outs
    /\ length outs = length (key :: rest)
    /\ forall ri, In ri (forEachIndex shp (Z.to_nat sort_dim)) ->
         let n := nth (Z.to_nat sort_dim) shp 0 in
         let vals :=
           getValuesToSort E uninit (key :: rest) ri (Z.to_nat sort_dim) n in
         getValuesToSort E uninit outs ri (Z.to_nat sort_dim) n
         = map (fun v => permute E uninit v
                  (rowPermutation uninit cmp is_stable vis vals n)) vals.
Proof.
  intros Hc Hw Hsd.
  assert (Hk : shape key = shp) by (inversion Hw as [|? ? [? ?] ?]; auto).
  rewrite Sort_in_range by now rewrite Hk.
  rewrite Hk.
  destruct (sortRows_spec uninit cmp is_stable vis shp (key :: rest)
              (Z.to_nat sort_dim) (forEachIndex shp (Z.to_nat sort_dim)))
    with (acc := (map (fun v => mkValue (shape v)
                                 (repeat uninit (numel (shape v))))
                      (key :: rest), @nil Event))
    as (outs & tr & Hrun & Hwo & Hlo & Hrows); auto.
  - lia.
  - apply forEachIndex_InRange.
  - cbn [fst]. apply Forall_map. revert Hw. apply List.Forall_impl.
    intros v [Hs Hl]. split; cbn [shape data]; [exact Hs|].
    now rewrite repeat_length, Hs.
  - cbn [fst]. now rewrite length_map.
  - exists outs, tr. repeat split; auto.
    intros ri Hri. apply Hrows; [|exact Hri].
    pose proof (forEachIndex_InRange shp (Z.to_nat sort_dim)) as Hall.
    rewrite List.Forall_forall in Hall. now apply Hall.
Qed.

(** *** One-dimensional operands *)

Lemma rowOf_vector n (row : Row E) :
  length row = n -> rowOf E uninit (mkValue [n] row) [0] 0 n = row.
Proof.
  intros <-. apply (permute_seq uninit).
Qed.

Lemma forEachIndex_vector n : 0 < n -> forEachIndex [n] 0 = [[0]].
Proof.
  intros H. unfold forEachIndex. simpl.
  destruct n; [lia|reflexivity].
Qed.

Lemma vector_of_row n (v : Value E) :
  WellShaped E [n] v -> v = mkValue [n] (rowOf E uninit v [0] 0 n).
Proof.
  destruct v as [shp dat]. intros [Hs Hl]. cbn [shape data] in *. subst shp.
  f_equal. symmetry.
  change (permute E uninit dat (seq 0 n) = dat).
  replace n with (length dat) by (rewrite Hl; simpl; lia).
  apply permute_seq.
Qed.

Lemma Sort_vector cmp is_stable vis n (rows : list (Row E)) :
  LengthPreserving cmp -> rows <> [] -> 0 < n ->
  Forall (fun r => length r = n) rows ->
  ovalues (Sort E uninit (map (mkValue [n]) rows) 0 is_stable cmp vis)
  = Ok (map (fun r => mkValue [n]
               (permute E uninit r
                  (rowPermutation uninit cmp is_stable vis rows n)))
            rows).
Proof.
  intros Hc Hne Hn Hl.
  destruct rows as [|r0 rows]; [contradiction|]. cbn [map].
  assert (Hw : Forall (WellShaped E [n])
                 (mkValue [n] r0 :: map (mkValue [n]) rows)).
  { change (Forall (WellShaped E [n]) (map (mkValue [n]) (r0 :: rows))).
    apply Forall_map. revert Hl. apply List.Forall_impl.
    intros r Hr. split; simpl; [reflexivity|lia]. }
  destruct (Sort_rows cmp is_stable vis [n] (mkValue [n] r0)
              (map (mkValue [n]) rows) 0 Hc Hw)
    as (outs & tr & -> & Hwo & Hlo & Hrows); [simpl; lia|].
  simpl. f_equal.
  specialize (Hrows [0]). rewrite forEachIndex_vector in Hrows by exact Hn.
  specialize (Hrows (or_introl eq_refl)). cbn zeta in Hrows.
  change (Z.to_nat 0) with 0 in Hrows. change (nth 0 [n] 0) with n in Hrows.
  assert (Hin : getValuesToSort E uninit
                  (mkValue [n] r0 :: map (mkValue [n]) rows) [0] 0 n
                = r0 :: rows).
  { change (map (fun v => rowOf E uninit v [0] 0 n)
                (map (mkValue [n]) (r0 :: rows)) = r0 :: rows).
    rewrite map_map. rewrite <- (map_id (r0 :: rows)) at 2.
    apply map_ext_Forall. revert Hl. apply List.Forall_impl.
    intros r Hr. now apply rowOf_vector. }
  rewrite Hin in Hrows.
  assert (Houts : outs = map (mkValue [n])
                           (getValuesToSort E uninit outs [0] 0 n)).
  { rewrite getValuesToSort_rowOf, map_map.
    rewrite <- (map_id outs) at 1.
    apply map_ext_Forall. revert Hwo. apply List.Forall_impl.
    intros v Hv. now apply vector_of_row. }
  rewrite Houts, Hrows. now rewrite map_map.
Qed.

End SortTensors.

(** ** What the oblivious path issues *)

Section ObliviousTrace.

Context {E : Type} (uninit : E).
Implicit Types (cmp : CompFn E) (vals : list (Row E)).

Lemma sortRowSecret_trace cmp vals :
  otrace (sortRowSecret E uninit cmp vals)
  = Ok (secretSchedule (length (hd [] vals))).
Proof.
  unfold sortRowSecret, secretSchedule.
  rewrite parallelBitonicSort_eq.
  destruct (has_single_bit _); simpl.
  - now rewrite stages_trace.
  - now rewrite sort_trace.
Qed.

Lemma sortRows_secret_trace cmp is_stable key rest sd n ris
    (acc : Traced (list (Value E))) :
  otrace (sortRows E uninit cmp is_stable VIS_SECRET (key :: rest) sd n ris acc)
  = Ok (snd acc ++ concat (map (fun _ => secretSchedule n) ris)).
Proof.
  revert acc. induction ris as [|ri ris IH]; intros [res tr0]; simpl.
  - now rewrite app_nil_r.
  - pose proof (sortRowSecret_trace cmp
                  (getValuesToSort E uninit (key :: rest) ri sd n)) as Ht.
    destruct (sortRowSecret E uninit cmp _) as [[sorted str]| |];
      simpl in Ht; try discriminate.
    injection Ht as Ht. simpl. rewrite IH. simpl.
    rewrite Ht, <- app_assoc. do 3 f_equal.
    unfold rowOf. now rewrite length_map, length_seq.
Qed.

Lemma Sort_secret_trace cmp is_stable key rest sort_dim :
  otrace (Sort E uninit (key :: rest) sort_dim is_stable cmp VIS_SECRET)
  = sortSchedule (shape key) sort_dim.
Proof.
  unfold Sort, sortSchedule.
  destruct (vector_at (shape key) sort_dim) as [n| |]; simpl; try reflexivity.
  destruct (_ && _)%bool; [|reflexivity].
  now rewrite sortRows_secret_trace.
Qed.

End ObliviousTrace.

(** ** The merge step *)

Section MergeStep.

Lemma gpow_loop_pow2 fuel k n :
  (exists j, k = 2 ^ j) -> exists j, gpow_loop fuel k n = 2 ^ j.
Proof.
  revert k. induction fuel as [|fuel IH]; intros k Hk; simpl; [exact Hk|].
  destruct (k <? n); [|exact Hk].
  apply IH. destruct Hk as [j ->]. exists (S j). simpl. lia.
Qed.

Lemma greatestPowerOfTwoLessThan_pow2 n :
  2 <= n -> exists j, greatestPowerOfTwoLessThan n = 2 ^ j.
Proof.
  intros Hn. pose proof (greatestPowerOfTwoLessThan_bounds n Hn) as [H1 H2].
  unfold greatestPowerOfTwoLessThan in *.
  destruct (gpow_loop_pow2 n 1 n) as [j Hj]; [now exists 0|].
  rewrite Hj in *. destruct j as [|j]; [simpl in *; lia|].
  exists j. rewrite Nat.pow_succ_r', Nat.div2_double. reflexivity.
Qed.

End MergeStep.

End SortFacts.

(** * Properties of the region executor *)

Module ExecutorFacts.
Import Executor.

Section Regions.

Context {V : Type}.
Implicit Types (executor : OpExecutor V) (s final : SymbolScope V)
  (region : Region) (block : Block) (params results : list V).

Lemma lookupAll_Forall2 s operands results :
  lookupAll s operands = Ok results
  <-> Forall2 (fun operand r => lookupValue s operand = Ok r) operands results.
Proof.
  revert results. induction operands as [|x xs IH]; intros results; simpl.
  - split.
    + intros [= <-]. constructor.
    + intros H. now inversion H.
  - split.
    + destruct (lookupValue s x) as [v| |] eqn:Hx; simpl; try discriminate.
      destruct (lookupAll s xs) as [vs| |] eqn:Hxs; simpl; try discriminate.
      intros [= <-]. constructor; [exact Hx|]. now apply IH.
    + intros H. inversion H as [|? r ? rs Hx Hrs]; subst.
      rewrite Hx. simpl. apply IH in Hrs. now rewrite Hrs.
Qed.

Lemma injectParams_parent s args params :
  parent_ (injectParams s args params) = parent_ s.
Proof.
  revert s params. induction args as [|a args IH]; intros s [|p params];
    simpl; try reflexivity.
  now rewrite IH.
Qed.

Lemma runOps_parent executor ops s s' :
  KeepsParent executor -> runOps executor ops s = Ok s' ->
  parent_ s' = parent_ s.
Proof.
  intros Hk. revert s. induction ops as [|op ops IH]; intros s; simpl.
  - now intros [= <-].
  - destruct (executor op s) as [s1| |] eqn:Hop; simpl; try discriminate.
    intros Hrun. rewrite (IH _ Hrun). now apply (Hk op).
Qed.

(** [runRegion] on a region with one block and matching arity. *)
Lemma runRegion_eq executor parent region block params :
  getNumArguments region = length params ->
  getBlocks region = [block] ->
  runRegion executor parent region params
  = obind (runBlock executor
             (injectParams (mkSymbolScope ∅ parent) (getArguments region)
                           params)
             block params)
          (fun r => Ok (fst r, parent_ (snd r))).
Proof.
  intros Ha Hb. unfold runRegion, hasOneBlock.
  rewrite Ha, Nat.eqb_refl, Hb. reflexivity.
Qed.

Lemma runRegion_parent executor parent region params results parent' :
  KeepsParent executor ->
  runRegion executor parent region params = Ok (results, parent') ->
  parent' = parent.
Proof.
  intros Hk. unfold runRegion.
  destruct (_ =? _); [|discriminate].
  destruct (hasOneBlock region); [|discriminate].
  destruct (getBlocks region) as [|front ?]; [discriminate|].
  unfold runBlock.
  destruct (runOps executor _ _) as [s| |] eqn:Hrun; simpl; try discriminate.
  destruct (getTerminator front) as [termOp|]; simpl; [|discriminate].
  destruct (lookupAll s _) as [rs| |]; simpl; try discriminate.
  intros [= <- <-].
  rewrite (runOps_parent _ _ _ _ Hk Hrun), injectParams_parent.
  reflexivity.
Qed.

End Regions.

Lemma bindAll_parent s ids vs : parent_ (bindAll s ids vs) = parent_ s.
Proof.
  revert s vs. induction ids as [|i ids IH]; intros s [|v vs]; simpl;
    try reflexivity.
  now rewrite IH.
Qed.

Lemma sampleExecutor_KeepsParent fuel : KeepsParent (sampleExecutor fuel).
Proof.
  induction fuel as [|fuel IH]; intros op s s'; simpl; [discriminate|].
  destruct (opcode op) as [|[|[|?]]]; try discriminate.
  - intros [= <-]. apply bindAll_parent.
  - destruct (lookupAll s _) as [vs| |]; simpl; try discriminate.
    intros [= <-]. apply bindAll_parent.
  - destruct (getRegions op) as [|region ?]; [discriminate|].
    destruct (lookupAll s _) as [params| |]; simpl; try discriminate.
    destruct (runRegion _ _ _ _) as [[rs p']| |] eqn:Hrun; simpl;
      try discriminate.
    apply (runRegion_parent _ _ _ _ _ _ IH) in Hrun. subst p'.
    intros [= <-]. apply bindAll_parent.
Qed.

End ExecutorFacts.

(** * Further properties of the region executor *)

Module ScopeFacts.
Import Executor ExecutorFacts.

Section Lookups.

Context {V : Type}.
Implicit Types (executor : OpExecutor V) (s final : SymbolScope V)
  (region : Region) (block : Block) (params results : list V)
  (key : GraphValueId).

Lemma lookupValue_addValue s k v key :
  lookupValue (addValue s k v) key
  = if Nat.eqb k key then Ok v else lookupValue s key.
Proof.
  destruct s as [symbols parent]. unfold addValue. cbn.
  destruct (Nat.eqb_spec k key) as [->|Hne].
  - now rewrite lookup_insert_eq.
  - now rewrite lookup_insert_ne.
Qed.

Lemma addValue_twice s k v w :
  addValue (addValue s k v) k w = addValue s k w.
Proof.
  destruct s as [symbols parent]. unfold addValue. cbn.
  now rewrite insert_insert_eq.
Qed.

Lemma lookupValue_outcomes s key :
  (exists v, lookupValue s key = Ok v)
  \/ lookupValue s key = Throw UndefinedValue.
Proof.
  revert s. fix IH 1. intros [symbols [p|]]; cbn.
  - destruct (symbols !! key) as [v|]; [left; now exists v|]. apply IH.
  - destruct (symbols !! key) as [v|]; [left; now exists v|]. now right.
Qed.

Lemma lookupValue_injectParams s args params key :
  lookupValue (injectParams s args params) key
  = match argBinding args params key with
    | Some v => Ok v
    | None => lookupValue s key
    end.
Proof.
  revert s params. induction args as [|a args IH]; intros s [|p params];
    cbn; try reflexivity.
  rewrite IH. destruct (argBinding args params key); [reflexivity|].
  rewrite lookupValue_addValue. now destruct (Nat.eqb a key).
Qed.

Lemma argBinding_In args params key v :
  argBinding args params key = Some v -> In key args.
Proof.
  revert params v. induction args as [|b args IH]; intros [|q params] v Hb;
    cbn in Hb; try discriminate.
  destruct (argBinding args params key) as [w|] eqn:Hb'.
  - right. now apply (IH params w).
  - destruct (Nat.eqb_spec b key); [now left|discriminate].
Qed.

Lemma argBinding_positional args params i a p :
  List.NoDup args -> args !! i = Some a -> params !! i = Some p ->
  argBinding args params a = Some p.
Proof.
  intros Hnd. revert params i.
  induction Hnd as [|a0 args Ha0 Hnd IH]; intros [|p0 params] [|i] Ha Hp;
    cbn in *; try discriminate.
  - injection Ha as ->. injection Hp as ->.
    destruct (argBinding args params a) as [v|] eqn:Hb.
    + exfalso. apply Ha0. now apply (argBinding_In args params a v).
    + now rewrite Nat.eqb_refl.
  - now rewrite (IH params i Ha Hp).
Qed.

Lemma lookupAll_undefined s operands key :
  In key operands -> lookupValue s key = Throw UndefinedValue ->
  lookupAll s operands = Throw UndefinedValue.
Proof.
  induction operands as [|x xs IH]; intros Hin Hkey; [destruct Hin|].
  cbn. destruct Hin as [->|Hin].
  - now rewrite Hkey.
  - destruct (lookupValue_outcomes s x) as [[v ->]| ->]; [|reflexivity].
    cbn. now rewrite (IH Hin Hkey).
Qed.

Lemma runOps_app executor ops1 ops2 s :
  runOps executor (ops1 ++ ops2) s
  = obind (runOps executor ops1 s) (runOps executor ops2).
Proof.
  revert s. induction ops1 as [|op ops1 IH]; intros s; cbn; [reflexivity|].
  destruct (executor op s) as [s1| |]; cbn; auto.
Qed.

Lemma lookupAll_injected s args params :
  List.NoDup args -> length args = length params ->
  lookupAll (injectParams s args params) args = Ok params.
Proof.
  intros Hnd Hlen. apply lookupAll_Forall2.
  apply Forall2_same_length_lookup_2; [exact Hlen|].
  intros i a p Ha Hp. rewrite lookupValue_injectParams.
  now rewrite (argBinding_positional args params i a p).
Qed.

End Lookups.

End ScopeFacts.

(** * Further properties of the sort engine *)

Module NetworkFacts.
Import Sort SortFacts.

Section Frames.

Context {E : Type} (uninit : E).
Implicit Types (cmp : CompFn E) (vals : list (Row E)) (v : Row E)
  (p : list bool).








End Frames.

Section Orientation.

Implicit Types (v X Y : list Z).

Lemma select_min_nth X Y k d :
  length Y = length X -> k < length X ->
  nth k (select Z (zip_lt (fun z => z) X Y) X Y) d
  = Z.min (nth k X d) (nth k Y d).
Proof.
  revert Y k. induction X as [|a X IH]; intros [|b Y] k HY Hk; simpl in *;
    try lia.
  destruct k as [|k].
  - destruct (Z.ltb_spec a b); lia.
  - apply IH; lia.
Qed.

Lemma select_max_nth X Y k d :
  length Y = length X -> k < length X ->
  nth k (select Z (zip_lt (fun z => z) X Y) Y X) d
  = Z.max (nth k X d) (nth k Y d).
Proof.
  revert Y k. induction X as [|a X IH]; intros [|b Y] k HY Hk; simpl in *;
    try lia.
  destruct k as [|k].
  - destruct (Z.ltb_spec a b); lia.
  - apply IH; lia.
Qed.

Lemma stepRow_cmpSwap_inside v x y n acc k d :
  x + n <= y -> y + n <= length v -> k < n ->
  let out := stepRow (EvCmpSwap x y n acc) v in
  let a := nth (x + k) v d in
  let b := nth (y + k) v d in
  nth (x + k) out d = (if acc then Z.min a b else Z.max a b)
  /\ nth (y + k) out d = (if acc then Z.max a b else Z.min a b).
Proof.
  intros H1 H2 Hk. cbn [stepRow].
  destruct (row_split v x y n H1 H2)
    as (a & X & b & Y & c & -> & Ha & HX & Hb & HY).
  assert (Hsx : slice Z (a ++ X ++ b ++ Y ++ c) x (x + n) = X).
  { rewrite <- Ha, <- HX. apply slice_app_mid. }
  assert (Hsy : slice Z (a ++ X ++ b ++ Y ++ c) y (y + n) = Y).
  { replace (a ++ X ++ b ++ Y ++ c) with ((a ++ X ++ b) ++ Y ++ c)
      by now rewrite <- !app_assoc.
    replace y with (length (a ++ X ++ b)) by (rewrite !length_app; lia).
    rewrite <- HY. apply slice_app_mid. }
  rewrite Hsx, Hsy.
  set (p := zip_lt (fun z => z) X Y).
  assert (Hp : length p = n) by (unfold p; rewrite zip_lt_length; lia).
  assert (LG1 : length (select Z p X Y) = n) by (rewrite select_length; lia).
  assert (LG2 : length (select Z p Y X) = n) by (rewrite select_length; lia).
  assert (Hsw : swapRow Z p x y n acc (a ++ X ++ b ++ Y ++ c)
                = a ++ (if acc then select Z p X Y else select Z p Y X) ++ b
                    ++ (if acc then select Z p Y X else select Z p X Y) ++ c).
  { replace y with (length a + length X + length b) by lia.
    rewrite <- Ha, <- HX. apply swapRow_split; lia. }
  rewrite Hsw.
  assert (Hxa : forall l r, length l = n ->
             nth (x + k) (a ++ l ++ r) d = nth k l d).
  { intros l r Hl. rewrite app_nth2 by lia. rewrite app_nth1 by lia.
    f_equal. lia. }
  assert (Hya : forall l l' r, length l = n -> length l' = n ->
             nth (y + k) (a ++ l ++ b ++ l' ++ r) d = nth k l' d).
  { intros l l' r Hl Hl'. rewrite app_nth2 by lia.
    rewrite app_nth2 by lia. rewrite app_nth2 by lia.
    rewrite app_nth1 by lia. f_equal. lia. }
  cbv zeta. rewrite !Hxa, !Hya by (destruct acc; lia).
  unfold p.
  destruct acc; rewrite ?select_min_nth, ?select_max_nth by lia; split;
    reflexivity.
Qed.

End Orientation.

Section InversePermutation.

Lemma Sorted_map_keys (kf : nat -> Z) l :
  Sorted (keyLe kf) l -> Sorted Z.le (map kf l).
Proof.
  induction 1 as [|i l Hs IH Hd]; simpl; constructor; [exact IH|].
  destruct Hd; constructor. assumption.
Qed.

Lemma seq_Sorted_Z s n : Sorted Z.le (map Z.of_nat (seq s n)).
Proof.
  revert s. induction n as [|n IH]; intros s; simpl; constructor; [apply IH|].
  destruct n; simpl; constructor. lia.
Qed.

Lemma map_of_nat_inj (a b : list nat) :
  map Z.of_nat a = map Z.of_nat b -> a = b.
Proof.
  revert b. induction a as [|x a IH]; intros [|y b]; simpl; try discriminate;
    [reflexivity|].
  intros [= Hxy Hab]. f_equal; [lia|auto].
Qed.

Lemma inverse_permutation_inverts index n :
  Permutation index (seq 0 n) ->
  permute nat 0 index (inverse_permutation index) = seq 0 n.
Proof.
  intros Hp.
  assert (Hlen : length index = n)
    by now rewrite (Permutation_length Hp), length_seq.
  set (kf := fun i => Z.of_nat (nth i index 0)).
  assert (Hinv : inverse_permutation index
                 = std_stable_sort (fun a b => (kf a <? kf b)%Z) (seq 0 n)).
  { unfold inverse_permutation, std_sort. rewrite Hlen.
    apply std_stable_sort_ext. intros a b. unfold kf.
    destruct (Nat.ltb_spec (nth a index 0) (nth b index 0)),
      (Z.ltb_spec (Z.of_nat (nth a index 0)) (Z.of_nat (nth b index 0)));
      auto; lia. }
  apply map_of_nat_inj. unfold permute. rewrite map_map.
  change (map kf (inverse_permutation index) = map Z.of_nat (seq 0 n)).
  apply Sorted_Z_unique.
  - rewrite Hinv.
    apply Sorted_map_keys, stableLt_keyLe, std_stable_sort_stable,
      seq_StronglySorted.
  - apply seq_Sorted_Z.
  - rewrite Hinv, (Permutation_map kf (std_stable_sort_Permutation _ _)).
    unfold kf. rewrite <- (map_map (fun i => nth i index 0) Z.of_nat).
    apply Permutation_map.
    change (Permutation (permute nat 0 index (seq 0 n)) (seq 0 n)).
    rewrite <- Hlen at 1. now rewrite permute_seq_gen.
Qed.

Lemma permute_round_trip {E} (uninit : E) (v : Row E) index :
  Permutation index (seq 0 (length v)) ->
  permute E uninit (permute E uninit v index) (inverse_permutation index) = v.
Proof.
  intros Hp.
  assert (Hlen : length index = length v)
    by now rewrite (Permutation_length Hp), length_seq.
  rewrite permute_permute.
  - rewrite (inverse_permutation_inverts index (length v) Hp).
    apply permute_seq.
  - apply Permutation_seq_bound, inverse_permutation_Permutation.
Qed.

End InversePermutation.

Section StageCount.

Lemma length_flat_map_triangle {A} (f : nat -> list A) m :
  (forall s, length (f s) = S s) ->
  2 * length (flat_map f (seq 0 m)) = m * (m + 1).
Proof.
  intros Hf. induction m as [|m IH]; [reflexivity|].
  rewrite seq_S, flat_map_app, length_app. cbn [flat_map Nat.add].
  rewrite app_nil_r, Hf. lia.
Qed.

Lemma has_single_bit_pow2 k : has_single_bit (2 ^ k) = true.
Proof.
  unfold has_single_bit.
  assert (2 ^ k <> 0) by (apply Nat.pow_nonzero; lia).
  rewrite Nat.log2_pow2 by lia.
  rewrite Nat.eqb_refl. now destruct (Nat.eqb_spec (2 ^ k) 0).
Qed.

Lemma bit_width_pow2 k : bit_width (2 ^ k) = S k.
Proof.
  unfold bit_width.
  assert (2 ^ k <> 0) by (apply Nat.pow_nonzero; lia).
  destruct (Nat.eqb_spec (2 ^ k) 0); [contradiction|].
  now rewrite Nat.log2_pow2 by lia.
Qed.

Lemma parIndices_count k : 2 * length (parIndices (2 ^ k)) = k * (k + 1).
Proof.
  unfold parIndices, generateBitonicMergeIndex, generateBitonicSortIndex.
  rewrite has_single_bit_pow2, bit_width_pow2.
  rewrite length_app, length_map, length_rev, length_seq.
  replace (S k - 1) with k by lia.
  pose proof (length_flat_map_triangle
                (fun stage_idx =>
                   map (fun substage_idx =>
                          split_by (2 ^ k) (fun i =>
                            negb (xorb (negb (Nat.testbit i (stage_idx + 1)))
                                       (negb (Nat.testbit i substage_idx)))))
                       (rev (seq 0 (S stage_idx))))
                (k - 1)) as Ht.
  cbv zeta.
  rewrite Nat.mul_add_distr_l, Ht.
  - destruct k; simpl; lia.
  - intros s. now rewrite length_map, length_rev, length_seq.
Qed.

Lemma stagesSchedule_cmpSwaps n indices :
  length (List.filter isCmpSwap (stagesSchedule n indices)) = length indices.
Proof.
  induction indices as [|index rest IH]; [reflexivity|].
  rewrite stagesSchedule_cons. cbn. now rewrite IH.
Qed.

End StageCount.

Section Descending.

Lemma Sorted_desc_by_thresholds (v : list Z) :
  (forall t, Sorted Z.ge (map (thr t) v)) -> Sorted Z.ge v.
Proof.
  induction v as [|a v IH]; intros H; [constructor|].
  constructor.
  - apply IH. intros t. specialize (H t). now inversion H.
  - destruct v as [|b v]; constructor.
    specialize (H b). inversion H as [|? ? _ Hd]; subst.
    inversion Hd as [|? ? Hle]; subst. unfold thr in Hle.
    rewrite Z.ltb_irrefl in Hle.
    destruct (Z.ltb_spec a b); lia.
Qed.

Lemma sortedDescb_Sorted (v : list Z) : sortedDescb v = true -> Sorted Z.ge v.
Proof.
  induction v as [|a v IH]; intros H; [constructor|].
  destruct v as [|b v]; [repeat constructor|].
  change (((b <=? a)%Z && sortedDescb (b :: v)) = true) in H.
  apply andb_prop in H. destruct H as [Hab Hs].
  constructor; [now apply IH|]. constructor. apply Z.leb_le in Hab. lia.
Qed.

Lemma zero_one_principle_desc tr n :
  Forall (ValidEvent n) tr ->
  (forall b, length b = n -> Forall Bit b ->
             sortedDescb (replayRow tr b) = true) ->
  forall v, length v = n -> Sorted Z.ge (replayRow tr v).
Proof.
  intros Hv H01 v Hn. apply Sorted_desc_by_thresholds. intros t.
  rewrite <- replayRow_mono; [|apply thr_mono|now rewrite Hn].
  apply sortedDescb_Sorted, H01; [now rewrite length_map|apply thr_Bit].
Qed.

Lemma sequential_check_desc :
  forallb (fun n => forallb sortedDescb (reach 5 n (seqSchedule 0 n false)))
          (seq 0 33) = true.
Proof. vm_compute. reflexivity. Qed.

Lemma sequential_row_sorted_desc n (v : list Z) :
  n <= 32 -> length v = n ->
  exists r, fst (sequentialBitonicSort Z lessThan [v] 0 n false) = [r]
            /\ Sorted Z.ge r /\ Permutation r v.
Proof.
  intros Hle Hn.
  exists (replayRow (seqSchedule 0 n false) v).
  assert (Hval : Forall (ValidEvent n) (seqSchedule 0 n false))
    by (apply seqSchedule_valid; lia).
  split; [|split].
  - now rewrite (seq_sort_replay 0%Z), replay_single.
  - apply (zero_one_principle_desc _ n Hval); [|exact Hn].
    intros b Hb Hbit.
    assert (Hc := sequential_check_desc). rewrite forallb_forall in Hc.
    specialize (Hc n ltac:(apply in_seq; lia)).
    rewrite forallb_forall in Hc. apply Hc. now apply reach_sound.
  - apply replayRow_Permutation. now rewrite Hn.
Qed.

End Descending.

Section KeyedRows.

Context {E : Type} (uninit : E) (key : E -> Z).
Implicit Types (v : Row E) (tr : list Event).

Lemma zip_lt_map (a b : list E) :
  zip_lt (fun z => z) (map key a) (map key b) = zip_lt key a b.
Proof.
  revert b. induction a as [|x a IH]; intros [|y b]; simpl; auto.
  now rewrite IH.
Qed.

Lemma step_keys e v :
  ValidEvent (length v) e ->
  step E uninit (lessThanBy key) [v] e
  = [hd [] (step E uninit (lessThanBy key) [v] e)]
  /\ map key (hd [] (step E uninit (lessThanBy key) [v] e))
     = stepRow e (map key v)
  /\ length (hd [] (step E uninit (lessThanBy key) [v] e)) = length v.
Proof.
  destruct e as [index|x y w acc]; cbn [step ValidEvent]; intros Hv.
  - cbn. split; [reflexivity|]. split.
    + unfold permute. rewrite !map_map. apply map_ext_Forall.
      apply Permutation_seq_bound in Hv. revert Hv.
      apply List.Forall_impl. intros i Hi.
      rewrite (nth_indep _ _ (key uninit)) by now rewrite length_map.
      symmetry. apply map_nth.
    + rewrite permute_length.
      now rewrite (Permutation_length Hv), length_seq.
  - destruct Hv as [H1 H2]. rewrite cmpSwap_values. cbn [map hd].
    split; [reflexivity|]. split.
    + cbn [windows flat_map app lessThanBy stepRow].
      rewrite <- swapRow_map, !slice_map, zip_lt_map. reflexivity.
    + apply swapRow_length; [|lia|lia].
      cbn [windows flat_map app lessThanBy].
      rewrite zip_lt_length, !slice_length by lia. lia.
Qed.

Lemma replay_keys tr v :
  Forall (ValidEvent (length v)) tr ->
  exists out,
    replay E uninit (lessThanBy key) [v] tr = [out]
    /\ map key out = replayRow tr (map key v).
Proof.
  intros H. remember (length v) as n eqn:Hn. revert v Hn.
  induction H as [|e tr He _ IH]; intros v Hn.
  - exists v. now split.
  - subst n. destruct (step_keys e v He) as (Hs & Hk & Hl).
    destruct (IH (hd [] (step E uninit (lessThanBy key) [v] e)))
      as (out & Hout & Hkeys); [now rewrite Hl|].
    exists out. split.
    + change (replay E uninit (lessThanBy key) [v] (e :: tr))
        with (replay E uninit (lessThanBy key)
                     (step E uninit (lessThanBy key) [v] e) tr).
      now rewrite Hs.
    + rewrite Hkeys, Hk. reflexivity.
Qed.

End KeyedRows.

Section SecretRows.

Lemma single_bit_sizes :
  forallb (fun n => implb (has_single_bit n)
                          (existsb (Nat.eqb n) [1; 2; 4; 8; 16; 32]))
          (seq 0 33) = true.
Proof. vm_compute. reflexivity. Qed.

Lemma secretSchedule_sorts n (v : list Z) :
  n <= 32 -> length v = n -> Sorted Z.le (replayRow (secretSchedule n) v).
Proof.
  intros Hle Hn.
  pose proof (sortRowSecret_replay 0%Z lessThan [v]) as Hrep.
  cbn [hd] in Hrep. rewrite Hn, replay_single in Hrep.
  unfold sortRowSecret in Hrep. cbn [hd] in Hrep. rewrite Hn in Hrep.
  destruct (has_single_bit n) eqn:Hbit.
  - assert (Hin : In n [1; 2; 4; 8; 16; 32]).
    { assert (Hs := single_bit_sizes). rewrite forallb_forall in Hs.
      specialize (Hs n ltac:(apply in_seq; lia)). rewrite Hbit in Hs.
      cbn [implb] in Hs. apply existsb_exists in Hs.
      destruct Hs as (m & Hm & Heq). apply Nat.eqb_eq in Heq. now subst m. }
    destruct (parallel_row_sorted n v Hin Hn) as (r & Hpar & Hs & _).
    rewrite Hpar in Hrep. now injection Hrep as <-.
  - destruct (sequential_row_sorted n v Hle Hn) as (r & Hseq & Hs & _).
    cbn in Hrep. rewrite Hseq in Hrep. now injection Hrep as <-.
Qed.

Lemma secret_permutation_sorts_keys {E} (uninit : E) (key : E -> Z)
    (v : Row E) n :
  n <= 32 -> length v = n ->
  Sorted Z.le
    (map key (permute E uninit v
                (rowPermutation uninit (lessThanBy key) false VIS_SECRET
                                [v] n))).
Proof.
  intros Hle Hn.
  pose proof (secretSchedule_valid n) as Hval.
  destruct (replay_by_permutation uninit (lessThanBy key) [v]
              (secretSchedule n) n (lessThanBy_LengthPreserving key)
              ltac:(discriminate) ltac:(now constructor) Hval) as [Hrep _].
  destruct (replay_keys uninit key (secretSchedule n) v) as (out & Hout & Hk);
    [now rewrite Hn|].
  rewrite Hout in Hrep. cbn [map] in Hrep. injection Hrep as Hrep.
  change (rowPermutation uninit (lessThanBy key) false VIS_SECRET [v] n)
    with (replayIdx uninit (lessThanBy key) [v] (seq 0 n) (secretSchedule n)).
  rewrite <- Hrep, Hk.
  apply secretSchedule_sorts; [exact Hle|now rewrite length_map].
Qed.

End SecretRows.

Section Elements.

Context {E : Type} (uninit : E).






End Elements.

End NetworkFacts.

(** * Sort for every std::sort *)

Module AnySortFacts.
Import Sort SortFacts.

Section Instance.

Context {E : Type} (uninit : E).
Implicit Types (cmp : CompFn E) (vals : list (Row E)).

(** [Sort] is [SortWith] at the sorter that keeps ties in place. *)
Lemma sortRowsWith_std_sort cmp is_stable vis inputs sd n ris acc :
  sortRowsWith E uninit (fun lt l => Ok (std_sort lt l)) cmp is_stable vis
               inputs sd n ris acc
  = sortRows E uninit cmp is_stable vis inputs sd n ris acc.
Proof.
  revert acc. induction ris as [|ri ris IH]; intros acc; [reflexivity|].
  cbn [sortRowsWith sortRows].
  assert (Hrow : forall vals,
    sortRowWith E uninit (fun lt l => Ok (std_sort lt l)) cmp is_stable vis
                vals n
    = sortRow E uninit cmp is_stable vis vals n).
  { intros vals. destruct vis, is_stable; reflexivity. }
  rewrite Hrow.
  destruct (sortRow E uninit cmp is_stable vis _ n) as [sorted| |];
    [|reflexivity..].
  cbn [obind]. apply IH.
Qed.

Lemma SortWith_std_sort inputs sort_dim is_stable cmp vis :
  SortWith E uninit (fun lt l => Ok (std_sort lt l)) inputs sort_dim
           is_stable cmp vis
  = Sort E uninit inputs sort_dim is_stable cmp vis.
Proof.
  unfold SortWith, Sort. destruct inputs as [|key rest]; [reflexivity|].
  destruct (vector_at (shape key) sort_dim) as [n| |]; [|reflexivity..].
  cbn [obind]. destruct (_ && _)%bool; [|reflexivity].
  apply sortRowsWith_std_sort.
Qed.

End Instance.

Section Contract.

Lemma std_sort_conforming : ConformingSort (fun lt l => Ok (std_sort lt l)).
Proof.
  split.
  - intros lt lt' l H. f_equal. now apply std_stable_sort_ext.
  - intros lt l _. eexists. split; [reflexivity|].
    apply std_stable_sort_Permutation.
Qed.



End Contract.

Section Rows.

Context {E : Type} (uninit : E).
Variable sorter : (nat -> nat -> bool) -> list nat -> Outcome (list nat).
Implicit Types (cmp : CompFn E) (vals : list (Row E)).





End Rows.

Section Loop.

Context {E : Type} (uninit : E).
Variable sorter : (nat -> nat -> bool) -> list nat -> Outcome (list nat).
Implicit Types (cmp : CompFn E) (inputs results outs : list (Value E))
  (ri : list nat).



End Loop.

End AnySortFacts.

(** * The properties of the design document *)

Import Sort SortFacts AnySortFacts.

Lemma secret_row_values n (v : list Z) out :
  has_single_bit n = true -> length v = n ->
  ovalues (parallelBitonicSort Z 0%Z lessThan [v] n) = Ok [out] ->
  permute Z 0%Z v (rowPermutation 0%Z lessThan false VIS_SECRET [v] n) = out.
Proof.
  intros Hb Hn Hpar.
  pose proof (sortRow_permutes 0%Z lessThan false VIS_SECRET [v] n
                (lessThanBy_LengthPreserving _) ltac:(discriminate)
                ltac:(now constructor)) as Hrow.
  cbn [sortRow] in Hrow. unfold sortRowSecret in Hrow. cbn [hd] in Hrow.
  rewrite Hn, Hb, Hpar in Hrow. now injection Hrow.
Qed.

Lemma sequential_row_values n (v : list Z) out :
  has_single_bit n = false -> length v = n ->
  fst (sequentialBitonicSort Z lessThan [v] 0 n true) = [out] ->
  permute Z 0%Z v (rowPermutation 0%Z lessThan false VIS_SECRET [v] n) = out.
Proof.
  intros Hb Hn Hseq.
  pose proof (sortRow_permutes 0%Z lessThan false VIS_SECRET [v] n
                (lessThanBy_LengthPreserving _) ltac:(discriminate)
                ltac:(now constructor)) as Hrow.
  cbn [sortRow] in Hrow. unfold sortRowSecret in Hrow. cbn [hd] in Hrow.
  rewrite Hn, Hb in Hrow. simpl in Hrow. rewrite Hseq in Hrow.
  now injection Hrow.
Qed.

Lemma public_row_values is_stable (v : list Z) out :
  fst (sortRowPublic Z 0%Z lessThan is_stable [v] (length v)) = [out] ->
  permute Z 0%Z v
    (rowPermutation 0%Z lessThan is_stable VIS_PUBLIC [v] (length v)) = out.
Proof.
  intros Hpub.
  pose proof (sortRow_permutes 0%Z lessThan is_stable VIS_PUBLIC [v] (length v)
                (lessThanBy_LengthPreserving _) ltac:(discriminate)
                ltac:(now constructor)) as Hrow.
  cbn [sortRow] in Hrow. simpl in Hrow. simpl in Hpub.
  rewrite Hpub in Hrow. now injection Hrow.
Qed.

Lemma Sort_single_vector is_stable vis n (v : list Z) :
  0 < n -> length v = n ->
  ovalues (Sort Z 0%Z [mkValue [n] v] 0 is_stable lessThan vis)
  = Ok [mkValue [n]
          (permute Z 0%Z v (rowPermutation 0%Z lessThan is_stable vis [v] n))].
Proof.
  intros Hn Hl.
  apply (Sort_vector 0%Z lessThan is_stable vis n [v]
           (lessThanBy_LengthPreserving _));
    [discriminate|exact Hn|now constructor].
Qed.

Lemma rowPermutation_secret_stable is_stable (vals : list (Row Z)) n :
  rowPermutation 0%Z lessThan is_stable VIS_SECRET vals n
  = rowPermutation 0%Z lessThan false VIS_SECRET vals n.
Proof. reflexivity. Qed.

(** C1: for n in {1,2,4,8,16,32} and every permutation of a sequence of
    distinct keys, parallelBitonicSort, sequentialBitonicSort and Sort
    with VIS_PUBLIC produce the same output order (the sorted one); Sort
    with VIS_SECRET, which takes the parallel path, produces it too. *)
Theorem bitonic_paths_agree (n : nat) (keys input : list Z) (is_stable : bool) :
  In n [1; 2; 4; 8; 16; 32] ->
  length keys = n -> List.NoDup keys -> Permutation input keys ->
  exists out,
    Sorted Z.le out /\ Permutation out keys
    /\ ovalues (parallelBitonicSort Z 0%Z lessThan [input] n) = Ok [out]
    /\ fst (sequentialBitonicSort Z lessThan [input] 0 n true) = [out]
    /\ ovalues (Sort Z 0%Z [mkValue [n] input] 0 is_stable lessThan VIS_PUBLIC)
       = Ok [mkValue [n] out]
    /\ ovalues (Sort Z 0%Z [mkValue [n] input] 0 is_stable lessThan VIS_SECRET)
       = Ok [mkValue [n] out].
Proof.
  intros Hin Hlen _ Hperm.
  assert (Hl : length input = n)
    by now rewrite (Permutation_length Hperm).
  assert (Hpos : 0 < n /\ n <= 32 /\ has_single_bit n = true).
  { repeat (destruct Hin as [<-|Hin]; [repeat split; lia|]). destruct Hin. }
  destruct Hpos as (Hpos & Hle & Hbit).
  destruct (parallel_row_sorted n input Hin Hl) as (r1 & Hpar & Hs1 & Hp1).
  destruct (sequential_row_sorted n input Hle Hl) as (r2 & Hseq & Hs2 & Hp2).
  destruct (public_row_sorted is_stable input) as (r3 & Hpub & Hs3 & Hp3).
  assert (H12 : r2 = r1).
  { apply Sorted_Z_unique; auto. now rewrite Hp1, Hp2. }
  assert (H13 : r3 = r1).
  { apply Sorted_Z_unique; auto. now rewrite Hp1, Hp3. }
  subst r2 r3. exists r1.
  split; [exact Hs1|]. split; [now rewrite Hp1|].
  split; [exact Hpar|]. split; [exact Hseq|]. split.
  - rewrite Sort_single_vector by assumption.
    rewrite <- Hl at 2. now rewrite (public_row_values is_stable input r1).
  - rewrite Sort_single_vector by assumption.
    rewrite rowPermutation_secret_stable.
    now rewrite (secret_row_values n input r1).
Qed.

Lemma bitonic_paths_agree_witness :
  exists out,
    Sorted Z.le out /\ Permutation out [1; 2; 3; 4]%Z
    /\ ovalues (parallelBitonicSort Z 0%Z lessThan [[3; 1; 2; 4]%Z] 4)
       = Ok [out]
    /\ fst (sequentialBitonicSort Z lessThan [[3; 1; 2; 4]%Z] 0 4 true) = [out]
    /\ ovalues (Sort Z 0%Z [mkValue [4] [3; 1; 2; 4]%Z] 0 true lessThan
                     VIS_PUBLIC)
       = Ok [mkValue [4] out]
    /\ ovalues (Sort Z 0%Z [mkValue [4] [3; 1; 2; 4]%Z] 0 true lessThan
                     VIS_SECRET)
       = Ok [mkValue [4] out].
Proof.
  apply (bitonic_paths_agree 4 [1; 2; 3; 4]%Z [3; 1; 2; 4]%Z true).
  - simpl. tauto.
  - reflexivity.
  - repeat constructor; simpl; intuition lia.
  - apply perm_trans with (l' := [1; 3; 2; 4]%Z).
    + apply perm_swap.
    + apply perm_skip, perm_swap.
Defined.

(** C2: on the non-public path the sequence of compare-exchange windows
    and permutation index lists issued is a function of the row length
    alone (for a whole tensor: of the shape and the sort axis), whatever
    the operands, their element type and the comparator; a
    compare-exchange issues the same whatever its predicate. *)
Theorem secret_path_schedule_is_data_independent :
  (forall E (uninit : E) (cmp : CompFn E) (vals : list (Row E)),
      otrace (sortRowSecret E uninit cmp vals)
      = Ok (secretSchedule (length (hd [] vals))))
  /\ (forall E (uninit : E) (cmp : CompFn E) (key : Value E) rest sort_dim
             is_stable,
         otrace (Sort E uninit (key :: rest) sort_dim is_stable cmp VIS_SECRET)
         = sortSchedule (shape key) sort_dim)
  /\ (forall E (cmp : CompFn E) (vals : list (Row E)) x y n acc,
         snd (cmpSwap E cmp vals x y n acc) = [EvCmpSwap x y n acc]).
Proof.
  split; [|split].
  - intros. apply sortRowSecret_trace.
  - intros. apply Sort_secret_trace.
  - intros. apply cmpSwap_trace.
Qed.

(** C3: Sort on the single operand [3,1,2,4] with sortDim 0, comparator
    [<] and VIS_SECRET returns [1,2,3,4], through the schedule of the
    parallel network of size 4. *)
Theorem scenario_A_secret_sort (is_stable : bool) :
  has_single_bit 4 = true
  /\ ovalues (Sort Z 0%Z [mkValue [4] [3; 1; 2; 4]%Z] 0 is_stable lessThan
                   VIS_SECRET)
     = Ok [mkValue [4] [1; 2; 3; 4]%Z]
  /\ otrace (Sort Z 0%Z [mkValue [4] [3; 1; 2; 4]%Z] 0 is_stable lessThan
                  VIS_SECRET)
     = parSchedule 4.
Proof. destruct is_stable; vm_compute; auto. Qed.

(** C7: with sortDim equal to the rank, Sort reads [key_shape[sort_dim]]
    past the end of the shape before the check on sortDim is reached:
    the call has no defined behaviour instead of failing with
    InvalidSortDimension; the same holds for every sortDim outside
    [0, rank), so that the check can never fail. *)
Theorem sort_dim_equal_rank_is_unchecked :
  Sort Z 0%Z [mkValue [4] [3; 1; 2; 4]%Z] 1 false lessThan VIS_SECRET
  = Undefined
  /\ Sort Z 0%Z [mkValue [] [5]%Z] 0 false lessThan VIS_PUBLIC = Undefined
  /\ (forall E (uninit : E) (key : Value E) rest is_stable cmp vis,
         Sort E uninit (key :: rest) (Z.of_nat (length (shape key)))
              is_stable cmp vis = Undefined)
  /\ (forall E (uninit : E) (key : Value E) rest sort_dim is_stable cmp vis,
         Sort E uninit (key :: rest) sort_dim is_stable cmp vis
         = if ((0 <=? sort_dim)%Z
               && (sort_dim <? Z.of_nat (length (shape key)))%Z)%bool
           then sortRows E uninit cmp is_stable vis (key :: rest)
                  (Z.to_nat sort_dim)
                  (nth (Z.to_nat sort_dim) (shape key) 0)
                  (forEachIndex (shape key) (Z.to_nat sort_dim))
                  (map (fun v => mkValue (shape v)
                                   (repeat uninit (numel (shape v))))
                       (key :: rest), [])
           else Undefined).
Proof.
  split; [reflexivity|]. split; [reflexivity|]. split.
  - intros. unfold Sort, vector_at.
    destruct (Z.ltb_spec (Z.of_nat (length (shape key)))
                         (Z.of_nat (length (shape key)))); [lia|].
    now rewrite andb_false_r.
  - intros. unfold Sort, vector_at.
    destruct (_ && _)%bool; reflexivity.
Qed.

(** C10: Sort reads [inputs[0]] before any validation; on the empty
    operand list its behaviour is undefined, not a reported error. *)
Theorem Sort_without_operands_is_undefined :
  forall E (uninit : E) sort_dim is_stable (cmp : CompFn E) vis,
    Sort E uninit [] sort_dim is_stable cmp vis = Undefined.
Proof. reflexivity. Qed.

(** C8: for n in {3,5,6,7,9} and every input row, sequentialBitonicSort
    over [0, n) yields the sorted row (and so does Sort with VIS_SECRET,
    which falls back to it); a merge over more than one position
    compares the window at [lo] with the window at [lo + m], m the
    greatest power of two below n, then merges [lo, lo+m) and
    [lo+m, lo+n). *)
Theorem sequential_fallback_sorts (n : nat) (v : list Z) (is_stable : bool) :
  In n [3; 5; 6; 7; 9] -> length v = n ->
  (exists out,
      fst (sequentialBitonicSort Z lessThan [v] 0 n true) = [out]
      /\ Sorted Z.le out /\ Permutation out v
      /\ ovalues (Sort Z 0%Z [mkValue [n] v] 0 is_stable lessThan VIS_SECRET)
         = Ok [mkValue [n] out])
  /\ (exists j, greatestPowerOfTwoLessThan n = 2 ^ j)
  /\ greatestPowerOfTwoLessThan n < n <= 2 * greatestPowerOfTwoLessThan n
  /\ forall (cmp : CompFn Z) vals lo acc,
       sequentialBitonicMerge Z cmp vals lo n acc
       = let m := greatestPowerOfTwoLessThan n in
         run v1 <- cmpSwap Z cmp vals lo (lo + m) (n - m) acc in
         run v2 <- sequentialBitonicMerge Z cmp v1 lo m acc in
         sequentialBitonicMerge Z cmp v2 (lo + m) (n - m) acc.
Proof.
  intros Hin Hl.
  assert (Hn : 2 <= n /\ n <= 32 /\ has_single_bit n = false).
  { repeat (destruct Hin as [<-|Hin]; [repeat split; lia|]). destruct Hin. }
  destruct Hn as (H2 & H32 & Hbit).
  split; [|split; [|split]].
  - destruct (sequential_row_sorted n v H32 Hl) as (out & Hseq & Hs & Hp).
    exists out. repeat split; auto.
    rewrite Sort_single_vector by (auto; lia).
    rewrite rowPermutation_secret_stable.
    now rewrite (sequential_row_values n v out).
  - now apply greatestPowerOfTwoLessThan_pow2.
  - now apply greatestPowerOfTwoLessThan_bounds.
  - intros cmp vals lo acc. rewrite sequentialBitonicMerge_eq.
    destruct (Nat.ltb_spec 1 n); [reflexivity|lia].
Qed.

Lemma sequential_fallback_sorts_witness :
  (exists out,
      fst (sequentialBitonicSort Z lessThan [[5; 3; 9; 1; 7]%Z] 0 5 true) = [out]
      /\ Sorted Z.le out /\ Permutation out [5; 3; 9; 1; 7]%Z
      /\ ovalues (Sort Z 0%Z [mkValue [5] [5; 3; 9; 1; 7]%Z] 0 false lessThan
                       VIS_SECRET)
         = Ok [mkValue [5] out])
  /\ (exists j, greatestPowerOfTwoLessThan 5 = 2 ^ j)
  /\ greatestPowerOfTwoLessThan 5 < 5 <= 2 * greatestPowerOfTwoLessThan 5
  /\ forall (cmp : CompFn Z) vals lo acc,
       sequentialBitonicMerge Z cmp vals lo 5 acc
       = let m := greatestPowerOfTwoLessThan 5 in
         run v1 <- cmpSwap Z cmp vals lo (lo + m) (5 - m) acc in
         run v2 <- sequentialBitonicMerge Z cmp v1 lo m acc in
         sequentialBitonicMerge Z cmp v2 (lo + m) (5 - m) acc.
Proof.
  apply (sequential_fallback_sorts 5 [5; 3; 9; 1; 7]%Z false).
  - simpl. tauto.
  - reflexivity.
Defined.




(** With two pairs of equal keys the payload shows which permutation was
    taken: the stable sort keeps 20 before 40 and 10 before 30, the
    sorter that reverses ties does not, and both move keys and payload
    together. *)
Example unstable_ties :
  ovalues (SortWith Z 0%Z ties_reversed_sort
             [mkValue [4] [2; 1; 2; 1]%Z; mkValue [4] [10; 20; 30; 40]%Z]
             0 false lessThan VIS_PUBLIC)
  = Ok [mkValue [4] [1; 1; 2; 2]%Z; mkValue [4] [40; 20; 30; 10]%Z]
  /\ ovalues (Sort Z 0%Z
                [mkValue [4] [2; 1; 2; 1]%Z; mkValue [4] [10; 20; 30; 40]%Z]
                0 true lessThan VIS_PUBLIC)
     = Ok [mkValue [4] [1; 1; 2; 2]%Z; mkValue [4] [20; 40; 10; 30]%Z].
Proof. split; vm_compute; reflexivity. Qed.

(** C9: Sort on keys [3,1,2,4] with the payload strings c, a, b, d,
    VIS_PUBLIC and isStable returns keys [1,2,3,4] and the payload
    a, b, c, d; in stable mode, whatever the keys and the
    payload, both are moved by one permutation that orders the keys and
    keeps positions of equal keys in their original order. *)
Theorem scenario_B_public_stable_sort (n : nat) (keys payload : list Elem) :
  0 < n -> length keys = n -> length payload = n ->
  ovalues
    (Sort Elem (EInt 0)
       [mkValue [4] [EInt 3; EInt 1; EInt 2; EInt 4];
        mkValue [4] [EStr "c"; EStr "a"; EStr "b"; EStr "d"]]
       0 true (lessThanBy keyOf) VIS_PUBLIC)
  = Ok [mkValue [4] [EInt 1; EInt 2; EInt 3; EInt 4];
        mkValue [4] [EStr "a"; EStr "b"; EStr "c"; EStr "d"]]
  /\ exists pi,
       Permutation pi (seq 0 n)
       /\ StronglySorted (stableLt (fun i => keyOf (nth i keys (EInt 0)))) pi
       /\ ovalues
            (Sort Elem (EInt 0) [mkValue [n] keys; mkValue [n] payload]
                  0 true (lessThanBy keyOf) VIS_PUBLIC)
          = Ok [mkValue [n] (permute Elem (EInt 0) keys pi);
                mkValue [n] (permute Elem (EInt 0) payload pi)].
Proof.
  intros Hn Hk Hp. split; [vm_compute; reflexivity|].
  exists (rowPermutation (EInt 0) (lessThanBy keyOf) true VIS_PUBLIC
            [keys; payload] n).
  split; [|split].
  - apply std_stable_sort_Permutation.
  - apply (std_stable_sort_stable (fun i => keyOf (nth i keys (EInt 0)))),
      seq_StronglySorted.
  - apply (Sort_vector (EInt 0) (lessThanBy keyOf) true VIS_PUBLIC n
             [keys; payload] (lessThanBy_LengthPreserving _));
      [discriminate|exact Hn|repeat constructor; assumption].
Qed.

Lemma scenario_B_public_stable_sort_witness :
  ovalues
    (Sort Elem (EInt 0)
       [mkValue [4] [EInt 3; EInt 1; EInt 2; EInt 4];
        mkValue [4] [EStr "c"; EStr "a"; EStr "b"; EStr "d"]]
       0 true (lessThanBy keyOf) VIS_PUBLIC)
  = Ok [mkValue [4] [EInt 1; EInt 2; EInt 3; EInt 4];
        mkValue [4] [EStr "a"; EStr "b"; EStr "c"; EStr "d"]]
  /\ exists pi,
       Permutation pi (seq 0 4)
       /\ StronglySorted
            (stableLt (fun i => keyOf (nth i [EInt 2; EInt 1; EInt 2; EInt 1]
                                            (EInt 0)))) pi
       /\ ovalues
            (Sort Elem (EInt 0)
               [mkValue [4] [EInt 2; EInt 1; EInt 2; EInt 1];
                mkValue [4] [EStr "p"; EStr "q"; EStr "r"; EStr "s"]]
               0 true (lessThanBy keyOf) VIS_PUBLIC)
          = Ok [mkValue [4]
                  (permute Elem (EInt 0) [EInt 2; EInt 1; EInt 2; EInt 1] pi);
                mkValue [4]
                  (permute Elem (EInt 0)
                           [EStr "p"; EStr "q"; EStr "r"; EStr "s"] pi)].
Proof.
  apply (scenario_B_public_stable_sort 4); [lia|reflexivity|reflexivity].
Defined.

Example stable_ties :
  ovalues
    (Sort Elem (EInt 0)
       [mkValue [4] [EInt 2; EInt 1; EInt 2; EInt 1];
        mkValue [4] [EStr "p"; EStr "q"; EStr "r"; EStr "s"]]
       0 true (lessThanBy keyOf) VIS_PUBLIC)
  = Ok [mkValue [4] [EInt 1; EInt 1; EInt 2; EInt 2];
        mkValue [4] [EStr "q"; EStr "s"; EStr "p"; EStr "r"]].
Proof. vm_compute. reflexivity. Qed.

Import Executor ExecutorFacts.

(** C5: for a region whose parameter count equals its block-argument
    arity, runRegion returns as many values as the terminator has
    operands, the i-th being the lookup of the i-th operand in the scope
    chain as the non-terminator operations leave it. *)
Theorem runRegion_returns_terminator_operands {V} (executor : OpExecutor V)
    (parent : option (SymbolScope V)) (region : Region) (block : Block)
    (termOp : Operation) (params : list V) (final : SymbolScope V) :
  getNumArguments region = length params ->
  getBlocks region = [block] ->
  getTerminator block = Some termOp ->
  runOps executor (without_terminator block)
         (injectParams (mkSymbolScope ∅ parent) (getArguments region) params)
  = Ok final ->
  (forall results,
      Forall2 (fun operand r => lookupValue final operand = Ok r)
              (getOperands termOp) results ->
      runRegion executor parent region params = Ok (results, parent_ final))
  /\ (forall results parent',
         runRegion executor parent region params = Ok (results, parent') ->
         length results = length (getOperands termOp)
         /\ forall i operand, getOperands termOp !! i = Some operand ->
              exists r, results !! i = Some r
                        /\ lookupValue final operand = Ok r).
Proof.
  intros Ha Hb Ht Hrun.
  rewrite (runRegion_eq executor parent region block params Ha Hb).
  unfold runBlock. rewrite Hrun, Ht. cbn [obind].
  split.
  - intros results H. apply lookupAll_Forall2 in H. now rewrite H.
  - intros results parent'.
    destruct (lookupAll final (getOperands termOp)) as [rs| |] eqn:Hl;
      simpl; try discriminate.
    intros [= <- <-]. apply lookupAll_Forall2 in Hl.
    split; [symmetry; now apply Forall2_length in Hl|].
    intros i operand Hi.
    destruct (Forall2_lookup_l _ _ _ _ _ Hl Hi) as (r & Hr & Hlook).
    now exists r.
Qed.

Lemma runRegion_returns_terminator_operands_witness :
  (forall results,
      Forall2 (fun operand r => lookupValue sampleInnerFinal operand = Ok r)
              [1; 7] results ->
      runRegion (sampleExecutor 3) (Some sampleParent) sampleInner [3%Z]
      = Ok (results, parent_ sampleInnerFinal))
  /\ (forall results parent',
         runRegion (sampleExecutor 3) (Some sampleParent) sampleInner [3%Z]
         = Ok (results, parent') ->
         length results = length [1; 7]
         /\ forall i operand, [1; 7] !! i = Some operand ->
              exists r, results !! i = Some r
                        /\ lookupValue sampleInnerFinal operand = Ok r).
Proof.
  apply (runRegion_returns_terminator_operands (sampleExecutor 3)
           (Some sampleParent) sampleInner
           (mkBlock [7]
              [mkOperation 0 [] [1] 99 []; mkOperation 0 [] [5] 55 []]
              (Some (mkOperation 9 [1; 7] [] 0 [])))
           (mkOperation 9 [1; 7] [] 0 []) [3%Z] sampleInnerFinal);
    reflexivity.
Defined.

(** C6: when a region runs in a child of an enclosing scope, the
    enclosing scope is afterwards what it was before: a binding made
    inside the child cannot be looked up after the region returns, and a
    rebinding of an id already bound outside does not change what the
    enclosing scope returns for it. *)
Theorem nested_region_leaves_enclosing_scope {V} (executor : OpExecutor V)
    (parent : SymbolScope V) (region : Region) (params results : list V)
    (parent' : option (SymbolScope V)) :
  KeepsParent executor ->
  runRegion executor (Some parent) region params = Ok (results, parent') ->
  parent' = Some parent
  /\ forall key, lookupIn parent' key = lookupValue parent key.
Proof.
  intros Hk Hrun.
  apply (runRegion_parent executor _ _ _ _ _ Hk) in Hrun.
  subst parent'. split; reflexivity.
Qed.

Lemma nested_region_leaves_enclosing_scope_witness :
  runRegion (sampleExecutor 3) (Some sampleParent) sampleInner [3%Z]
  = Ok ([99%Z; 3%Z], Some sampleParent)
  /\ lookupValue sampleInnerFinal 1 = Ok 99%Z
  /\ lookupValue sampleInnerFinal 5 = Ok 55%Z
  /\ (Some sampleParent = Some sampleParent
      /\ forall key,
           lookupIn (Some sampleParent) key = lookupValue sampleParent key)
  /\ lookupValue sampleParent 1 = Ok 10%Z
  /\ lookupValue sampleParent 5 = Throw UndefinedValue.
Proof.
  split; [reflexivity|]. split; [reflexivity|]. split; [reflexivity|].
  split; [|split; reflexivity].
  apply (nested_region_leaves_enclosing_scope (sampleExecutor 3) sampleParent
           sampleInner [3%Z] [99%Z; 3%Z] (Some sampleParent)).
  - apply sampleExecutor_KeepsParent.
  - reflexivity.
Defined.

Example nested_rebinding_is_local :
  obind (runRegion (sampleExecutor 3) None sampleOuter [])
        (fun r => Ok (fst r))
  = Ok [10%Z; 99%Z; 10%Z].
Proof. reflexivity. Qed.

(** * Further properties of the code *)

Import ScopeFacts.

(** X1: a value bound with addValue is what lookupValue returns for
    that id, every other id resolves as before, and binding an id again
    replaces the earlier binding. *)
Theorem addValue_then_lookupValue {V} (s : SymbolScope V)
    (k key : GraphValueId) (v w : V) :
  lookupValue (addValue s k v) key
  = (if Nat.eqb k key then Ok v else lookupValue s key)
  /\ addValue (addValue s k v) k w = addValue s k w.
Proof.
  split; [apply lookupValue_addValue|apply addValue_twice].
Qed.

(** X2: in the scope runRegion builds on entry, a block argument
    resolves to the parameter at its position (the last one if the id
    is repeated) and every other id resolves in the enclosing scope, or
    fails with UndefinedValue when there is none. *)
Theorem region_entry_scope_resolution {V} (parent : option (SymbolScope V))
    (args : list GraphValueId) (params : list V) (key : GraphValueId) :
  lookupValue (injectParams (mkSymbolScope ∅ parent) args params) key
  = match argBinding args params key with
    | Some v => Ok v
    | None => lookupIn parent key
    end.
Proof.
  rewrite lookupValue_injectParams.
  destruct (argBinding args params key); [reflexivity|].
  destruct parent; reflexivity.
Qed.

(** X3: a region whose block has no operation and whose terminator
    returns the block arguments (pairwise distinct) returns its
    parameters as they were passed, and leaves the enclosing scope. *)
Theorem identity_region_returns_params {V} (executor : OpExecutor V)
    (parent : option (SymbolScope V)) (region : Region) (block : Block)
    (termOp : Operation) (params : list V) :
  List.NoDup (getArguments region) ->
  getNumArguments region = length params ->
  getBlocks region = [block] ->
  without_terminator block = [] ->
  getTerminator block = Some termOp ->
  getOperands termOp = getArguments region ->
  runRegion executor parent region params = Ok (params, parent).
Proof.
  intros Hnd Ha Hb Hops Ht Hop.
  rewrite (runRegion_eq executor parent region block params Ha Hb).
  unfold runBlock. rewrite Hops, Ht, Hop. cbn [runOps obind].
  rewrite lookupAll_injected by assumption. cbn.
  now rewrite injectParams_parent.
Qed.

Lemma identity_region_returns_params_witness :
  runRegion (sampleExecutor 1) (Some sampleParent)
    (mkRegion [mkBlock [4; 9] [] (Some (mkOperation 9 [4; 9] [] 0 []))])
    [7%Z; 8%Z]
  = Ok ([7%Z; 8%Z], Some sampleParent).
Proof.
  apply (identity_region_returns_params (sampleExecutor 1) (Some sampleParent)
           (mkRegion [mkBlock [4; 9] [] (Some (mkOperation 9 [4; 9] [] 0 []))])
           (mkBlock [4; 9] [] (Some (mkOperation 9 [4; 9] [] 0 [])))
           (mkOperation 9 [4; 9] [] 0 []) [7%Z; 8%Z]);
    try reflexivity.
  repeat constructor; cbn; intuition lia.
Defined.

(** X4: when the terminator names an id that no scope of the chain
    binds once the operations have run, runRegion fails with
    UndefinedValue, whatever the other operands resolve to. *)
Theorem undefined_terminator_operand_fails {V} (executor : OpExecutor V)
    (parent : option (SymbolScope V)) (region : Region) (block : Block)
    (termOp : Operation) (params : list V) (final : SymbolScope V)
    (key : GraphValueId) :
  getNumArguments region = length params ->
  getBlocks region = [block] ->
  getTerminator block = Some termOp ->
  runOps executor (without_terminator block)
         (injectParams (mkSymbolScope ∅ parent) (getArguments region) params)
  = Ok final ->
  In key (getOperands termOp) ->
  lookupValue final key = Throw UndefinedValue ->
  runRegion executor parent region params = Throw UndefinedValue.
Proof.
  intros Ha Hb Ht Hrun Hin Hkey.
  rewrite (runRegion_eq executor parent region block params Ha Hb).
  unfold runBlock. rewrite Hrun, Ht. cbn [obind].
  now rewrite (lookupAll_undefined final _ key Hin Hkey).
Qed.

Lemma undefined_terminator_operand_fails_witness :
  runRegion (sampleExecutor 3) (Some sampleParent)
    (mkRegion [mkBlock [7] [mkOperation 0 [] [5] 55 []]
                 (Some (mkOperation 9 [1; 6; 7] [] 0 []))])
    [3%Z]
  = Throw UndefinedValue.
Proof.
  apply (undefined_terminator_operand_fails (sampleExecutor 3)
           (Some sampleParent)
           (mkRegion [mkBlock [7] [mkOperation 0 [] [5] 55 []]
                        (Some (mkOperation 9 [1; 6; 7] [] 0 []))])
           (mkBlock [7] [mkOperation 0 [] [5] 55 []]
              (Some (mkOperation 9 [1; 6; 7] [] 0 [])))
           (mkOperation 9 [1; 6; 7] [] 0 []) [3%Z]
           (mkSymbolScope (<[5 := 55%Z]> (<[7 := 3%Z]> ∅))
                          (Some sampleParent))
           6);
    try reflexivity.
  cbn. tauto.
Defined.

(** X5: the operations of a block run in program order and stop at the
    first kernel that fails: its error is what runRegion raises, the
    operations after it are not run, and neither a missing terminator
    nor an unbound operand is looked at. *)
Theorem kernel_failure_stops_the_block {V} (executor : OpExecutor V)
    (parent : option (SymbolScope V)) (region : Region) (block : Block)
    (params : list V) (ops1 ops2 : list Operation) (op : Operation)
    (s1 : SymbolScope V) (e : Error) :
  getNumArguments region = length params ->
  getBlocks region = [block] ->
  without_terminator block = ops1 ++ op :: ops2 ->
  runOps executor ops1
         (injectParams (mkSymbolScope ∅ parent) (getArguments region) params)
  = Ok s1 ->
  executor op s1 = Throw e ->
  runRegion executor parent region params = Throw e.
Proof.
  intros Ha Hb Hops Hrun Hop.
  rewrite (runRegion_eq executor parent region block params Ha Hb).
  unfold runBlock. rewrite Hops, runOps_app, Hrun. cbn [obind runOps].
  now rewrite Hop.
Qed.

Lemma kernel_failure_stops_the_block_witness :
  runRegion (sampleExecutor 3) None
    (mkRegion [mkBlock [] [mkOperation 0 [] [1] 10 [];
                           mkOperation 1 [8] [2] 0 [];
                           mkOperation 0 [] [3] 30 []] None])
    []
  = Throw UndefinedValue.
Proof.
  apply (kernel_failure_stops_the_block (sampleExecutor 3) None
           (mkRegion [mkBlock [] [mkOperation 0 [] [1] 10 [];
                                  mkOperation 1 [8] [2] 0 [];
                                  mkOperation 0 [] [3] 30 []] None])
           (mkBlock [] [mkOperation 0 [] [1] 10 [];
                        mkOperation 1 [8] [2] 0 [];
                        mkOperation 0 [] [3] 30 []] None)
           [] [mkOperation 0 [] [1] 10 []] [mkOperation 0 [] [3] 30 []]
           (mkOperation 1 [8] [2] 0 [])
           (mkSymbolScope (<[1 := 10%Z]> ∅) None) UndefinedValue);
    reflexivity.
Defined.

(** X6: runRegion checks the arity first and the block count second,
    both before any kernel runs; a block whose operations all succeed
    but that has no terminator fails with MissingTerminator. *)
Theorem runRegion_checks_in_order {V} (executor : OpExecutor V)
    (parent : option (SymbolScope V)) (region : Region) (params : list V) :
  (getNumArguments region <> length params ->
   runRegion executor parent region params = Throw ArityMismatch)
  /\ (getNumArguments region = length params ->
      hasOneBlock region = false ->
      runRegion executor parent region params = Throw MalformedRegion)
  /\ (forall block final,
         getNumArguments region = length params ->
         getBlocks region = [block] ->
         getTerminator block = None ->
         runOps executor (without_terminator block)
           (injectParams (mkSymbolScope ∅ parent) (getArguments region)
                         params) = Ok final ->
         runRegion executor parent region params = Throw MissingTerminator).
Proof.
  split; [|split].
  - intros Hne. unfold runRegion.
    destruct (Nat.eqb_spec (getNumArguments region) (length params));
      [contradiction|reflexivity].
  - intros Ha Hb. unfold runRegion. now rewrite Ha, Nat.eqb_refl, Hb.
  - intros block final Ha Hb Ht Hrun.
    rewrite (runRegion_eq executor parent region block params Ha Hb).
    unfold runBlock. now rewrite Hrun, Ht.
Qed.

Import NetworkFacts.



(** X8: under the comparator [<], a compare-exchange leaves at each
    position of the first window the smaller and at the matching
    position of the second window the larger of the two elements when
    acc is set, and the other way round when it is not. *)
Theorem cmpSwap_orders_each_pair (v : list Z) (x y n k : nat) (acc : bool)
    (d : Z) :
  x + n <= y -> y + n <= length v -> k < n ->
  exists out,
    fst (cmpSwap Z lessThan [v] x y n acc) = [out]
    /\ nth (x + k) out d
       = (if acc then Z.min (nth (x + k) v d) (nth (y + k) v d)
          else Z.max (nth (x + k) v d) (nth (y + k) v d))
    /\ nth (y + k) out d
       = (if acc then Z.max (nth (x + k) v d) (nth (y + k) v d)
          else Z.min (nth (x + k) v d) (nth (y + k) v d)).
Proof.
  intros H1 H2 Hk. exists (stepRow (EvCmpSwap x y n acc) v).
  split; [reflexivity|].
  apply (stepRow_cmpSwap_inside v x y n acc k d H1 H2 Hk).
Qed.

Lemma cmpSwap_orders_each_pair_witness :
  exists out,
    fst (cmpSwap Z lessThan [[5; 1; 7; 2; 0]%Z] 0 3 2 false) = [out]
    /\ nth (0 + 1) out 0%Z
       = (if false then Z.min (nth (0 + 1) [5; 1; 7; 2; 0]%Z 0%Z)
                              (nth (3 + 1) [5; 1; 7; 2; 0]%Z 0%Z)
          else Z.max (nth (0 + 1) [5; 1; 7; 2; 0]%Z 0%Z)
                     (nth (3 + 1) [5; 1; 7; 2; 0]%Z 0%Z))
    /\ nth (3 + 1) out 0%Z
       = (if false then Z.max (nth (0 + 1) [5; 1; 7; 2; 0]%Z 0%Z)
                              (nth (3 + 1) [5; 1; 7; 2; 0]%Z 0%Z)
          else Z.min (nth (0 + 1) [5; 1; 7; 2; 0]%Z 0%Z)
                     (nth (3 + 1) [5; 1; 7; 2; 0]%Z 0%Z)).
Proof.
  apply (cmpSwap_orders_each_pair [5; 1; 7; 2; 0]%Z 0 3 2 1 false 0%Z);
    simpl; lia.
Defined.

(** X9: the inverse permutation that parallelBitonicSort computes by
    sorting the positions by their index undoes the forward
    permutation: permuting a row by an index list and then by its
    inverse gives the row back. *)
Theorem inverse_permutation_undoes_permute {E} (uninit : E) (v : Row E)
    (index : list nat) :
  Permutation index (seq 0 (length v)) ->
  Permutation (inverse_permutation index) (seq 0 (length v))
  /\ permute E uninit (permute E uninit v index) (inverse_permutation index)
     = v.
Proof.
  intros Hp. split.
  - rewrite inverse_permutation_Permutation.
    now rewrite (Permutation_length Hp), length_seq.
  - now apply permute_round_trip.
Qed.

Lemma inverse_permutation_undoes_permute_witness :
  Permutation (inverse_permutation [2; 0; 3; 1]) (seq 0 4)
  /\ permute Z 0%Z (permute Z 0%Z [10; 20; 30; 40]%Z [2; 0; 3; 1])
             (inverse_permutation [2; 0; 3; 1])
     = [10; 20; 30; 40]%Z.
Proof.
  apply (inverse_permutation_undoes_permute 0%Z [10; 20; 30; 40]%Z
           [2; 0; 3; 1]).
  cbn. apply perm_trans with (l' := [0; 2; 3; 1]); [apply perm_swap|].
  apply perm_skip.
  apply perm_trans with (l' := [2; 1; 3]); [apply perm_skip, perm_swap|].
  apply perm_swap.
Defined.

(** X10: on rows of length 2^k parallelBitonicSort succeeds, whatever
    the operands and the comparator, and its trace is, stage after
    stage of the merge indices followed by the sort indices, the
    forward permutation by the stage's index list, one compare-exchange
    of the two halves, and the permutation by the inverse of that index
    list; there are k(k+1)/2 stages, every index list and its inverse
    are permutations of the positions, and the inverse undoes the
    forward permutation on every row. *)
Theorem parallel_network_stage_count {E} (uninit : E) (cmp : CompFn E)
    (vals : list (Row E)) (k : nat) :
  exists mi si tr,
    generateBitonicMergeIndex (2 ^ k) = Ok mi
    /\ generateBitonicSortIndex (2 ^ k) = Ok si
    /\ otrace (parallelBitonicSort E uninit cmp vals (2 ^ k)) = Ok tr
    /\ tr = flat_map
              (fun index =>
                 [EvPermute index;
                  EvCmpSwap 0 (2 ^ k / 2) (2 ^ k / 2) true;
                  EvPermute (inverse_permutation index)])
              (mi ++ si)
    /\ 2 * length (mi ++ si) = k * (k + 1)
    /\ Forall (fun index =>
                 Permutation index (seq 0 (2 ^ k))
                 /\ Permutation (inverse_permutation index) (seq 0 (2 ^ k))
                 /\ forall v : Row E,
                      length v = 2 ^ k ->
                      permute E uninit (permute E uninit v index)
                              (inverse_permutation index) = v)
              (mi ++ si)
    /\ 2 * length (List.filter isCmpSwap tr) = k * (k + 1)
    /\ length tr = 3 * length (List.filter isCmpSwap tr)
    /\ Forall (ValidEvent (2 ^ k)) tr.
Proof.
  assert (Hgen : exists mi si,
             generateBitonicMergeIndex (2 ^ k) = Ok mi
             /\ generateBitonicSortIndex (2 ^ k) = Ok si
             /\ parIndices (2 ^ k) = mi ++ si).
  { unfold parIndices, generateBitonicMergeIndex, generateBitonicSortIndex.
    rewrite has_single_bit_pow2. eauto. }
  destruct Hgen as (mi & si & Hmi & Hsi & Hpar).
  assert (Hflat : forall l,
             stagesSchedule (2 ^ k) l
             = flat_map (fun index =>
                           [EvPermute index;
                            EvCmpSwap 0 (2 ^ k / 2) (2 ^ k / 2) true;
                            EvPermute (inverse_permutation index)]) l).
  { induction l as [|index rest IH]; [reflexivity|].
    rewrite stagesSchedule_cons. cbn [flat_map app]. now rewrite IH. }
  exists mi, si, (stagesSchedule (2 ^ k) (parIndices (2 ^ k))).
  split; [exact Hmi|]. split; [exact Hsi|].
  split; [|split; [|split; [|split; [|split; [|split]]]]].
  - rewrite parallelBitonicSort_eq, has_single_bit_pow2. cbn.
    now rewrite stages_trace.
  - now rewrite Hflat, Hpar.
  - rewrite <- Hpar. apply parIndices_count.
  - rewrite <- Hpar.
    pose proof (parIndices_valid (2 ^ k)) as Hv. revert Hv.
    apply List.Forall_impl. intros index Hp.
    assert (Hlen : length index = 2 ^ k)
      by now rewrite (Permutation_length Hp), length_seq.
    split; [exact Hp|]. split.
    + rewrite <- Hlen. apply inverse_permutation_Permutation.
    + intros v Hv. apply permute_round_trip. now rewrite Hv.
  - rewrite stagesSchedule_cmpSwaps. apply parIndices_count.
  - rewrite stagesSchedule_cmpSwaps.
    generalize (parIndices (2 ^ k)). intros l.
    induction l as [|index rest IH]; [reflexivity|].
    rewrite stagesSchedule_cons. cbn [length]. rewrite IH. lia.
  - apply stagesSchedule_valid, parIndices_valid.
Qed.



(** X12: with acc cleared, sequentialBitonicSort over a whole row of up
    to 32 integer keys returns the row in non-increasing order. *)
Theorem sequential_sort_descending (n : nat) (v : list Z) :
  n <= 32 -> length v = n ->
  exists out,
    fst (sequentialBitonicSort Z lessThan [v] 0 n false) = [out]
    /\ Sorted Z.ge out /\ Permutation out v.
Proof. apply sequential_row_sorted_desc. Qed.

Lemma sequential_sort_descending_witness :
  exists out,
    fst (sequentialBitonicSort Z lessThan [[5; 3; 9; 1; 7; 3]%Z] 0 6 false)
    = [out]
    /\ Sorted Z.ge out /\ Permutation out [5; 3; 9; 1; 7; 3]%Z.
Proof.
  apply (sequential_sort_descending 6 [5; 3; 9; 1; 7; 3]%Z);
    [lia|reflexivity].
Defined.

(** X13: rows written into the results with sliceCopy at a row index
    are what getValuesToSort reads back at that index, and the rows at
    every other row index are as before the write. *)
Theorem sliceCopy_then_getValuesToSort {E} (uninit : E) (shp : list nat)
    (results : list (Value E)) (rows : list (Row E)) (ri ri' : list nat)
    (sd : nat) :
  sd < length shp ->
  InRange (<[sd := 1]> shp) ri -> InRange (<[sd := 1]> shp) ri' ->
  Forall (WellShaped E shp) results ->
  Forall (fun r => length r = nth sd shp 0) rows ->
  length results = length rows ->
  getValuesToSort E uninit (writeBack E uninit results rows ri sd) ri sd
                  (nth sd shp 0) = rows
  /\ (ri <> ri' ->
      getValuesToSort E uninit (writeBack E uninit results rows ri sd) ri' sd
                      (nth sd shp 0)
      = getValuesToSort E uninit results ri' sd (nth sd shp 0)).
Proof.
  intros Hsd Hri Hri' Hw Hl Hlen. split.
  - now apply (writeBack_same uninit shp).
  - intros Hne. now apply (writeBack_other uninit shp).
Qed.

Lemma sliceCopy_then_getValuesToSort_witness :
  getValuesToSort Z 0%Z
    (writeBack Z 0%Z [mkValue [2; 3] [1; 2; 3; 4; 5; 6]%Z] [[7; 8]%Z] [0; 1] 0)
    [0; 1] 0 (nth 0 [2; 3] 0) = [[7; 8]%Z]
  /\ ([0; 1] <> [0; 2] ->
      getValuesToSort Z 0%Z
        (writeBack Z 0%Z [mkValue [2; 3] [1; 2; 3; 4; 5; 6]%Z] [[7; 8]%Z]
                   [0; 1] 0)
        [0; 2] 0 (nth 0 [2; 3] 0)
      = getValuesToSort Z 0%Z [mkValue [2; 3] [1; 2; 3; 4; 5; 6]%Z]
                        [0; 2] 0 (nth 0 [2; 3] 0)).
Proof.
  apply (sliceCopy_then_getValuesToSort 0%Z [2; 3]
           [mkValue [2; 3] [1; 2; 3; 4; 5; 6]%Z] [[7; 8]%Z] [0; 1] [0; 2] 0).
  - simpl. lia.
  - repeat constructor.
  - repeat constructor.
  - repeat constructor.
  - repeat constructor.
  - reflexivity.
Defined.




(** X15: on the public path, for tensors of any rank and rows of any
    length, Sort under the comparator [<] on the first operand leaves
    the keys of every row in non-decreasing order and moves the other
    operands of the row by the same permutation; with isStable, rows of
    equal keys keep their original order. *)
Theorem public_sort_orders_every_row {E} (uninit : E) (key : E -> Z)
    (is_stable : bool) (shp : list nat) (keys : Value E)
    (rest : list (Value E)) (sort_dim : Z) :
  Forall (WellShaped E shp) (keys :: rest) ->
  (0 <= sort_dim < Z.of_nat (length shp))%Z ->
  exists outs tr,
    Sort E uninit (keys :: rest) sort_dim is_stable (lessThanBy key) VIS_PUBLIC
    = Ok (outs, tr)
    /\ forall ri, In ri (forEachIndex shp (Z.to_nat sort_dim)) ->
         let sd := Z.to_nat sort_dim in
         let n := nth sd shp 0 in
         let row := rowOf E uninit keys ri sd n in
         exists pi,
           Permutation pi (seq 0 n)
           /\ Sorted Z.le (map key (permute E uninit row pi))
           /\ (is_stable = true ->
               StronglySorted (stableLt (fun i => key (nth i row uninit))) pi)
           /\ getValuesToSort E uninit outs ri sd n
              = map (fun v => permute E uninit v pi)
                    (getValuesToSort E uninit (keys :: rest) ri sd n).
Proof.
  intros Hw Hsd.
  destruct (Sort_rows uninit (lessThanBy key) is_stable VIS_PUBLIC shp keys
              rest sort_dim (lessThanBy_LengthPreserving key) Hw Hsd)
    as (outs & tr & Hrun & _ & _ & Hrows).
  exists outs, tr. split; [exact Hrun|].
  intros ri Hri sd n row. specialize (Hrows ri Hri). cbv zeta in Hrows.
  fold sd n in Hrows.
  set (kf := fun i => key (nth i row uninit)).
  set (pi := std_stable_sort (fun a b => (kf a <? kf b)%Z) (seq 0 n)).
  assert (Hpi : rowPermutation uninit (lessThanBy key) is_stable VIS_PUBLIC
                  (getValuesToSort E uninit (keys :: rest) ri sd n) n = pi)
    by (destruct is_stable; reflexivity).
  rewrite Hpi in Hrows.
  assert (Hst : StronglySorted (stableLt kf) pi)
    by apply std_stable_sort_stable, seq_StronglySorted.
  exists pi. split; [apply std_stable_sort_Permutation|].
  split; [|split; [intros _; exact Hst|exact Hrows]].
  unfold permute. rewrite map_map.
  apply (Sorted_map_keys kf), stableLt_keyLe, Hst.
Qed.

Lemma public_sort_orders_every_row_witness :
  exists outs tr,
    Sort Elem (EInt 0)
         [mkValue [2; 2] [EInt 2; EInt 1; EInt 5; EInt 5];
          mkValue [2; 2] [EStr "p"; EStr "q"; EStr "r"; EStr "s"]]
         1 true (lessThanBy keyOf) VIS_PUBLIC
    = Ok (outs, tr)
    /\ forall ri, In ri (forEachIndex [2; 2] (Z.to_nat 1)) ->
         let sd := Z.to_nat 1 in
         let n := nth sd [2; 2] 0 in
         let row := rowOf Elem (EInt 0)
                      (mkValue [2; 2] [EInt 2; EInt 1; EInt 5; EInt 5])
                      ri sd n in
         exists pi,
           Permutation pi (seq 0 n)
           /\ Sorted Z.le (map keyOf (permute Elem (EInt 0) row pi))
           /\ (true = true ->
               StronglySorted
                 (stableLt (fun i => keyOf (nth i row (EInt 0)))) pi)
           /\ getValuesToSort Elem (EInt 0) outs ri sd n
              = map (fun v => permute Elem (EInt 0) v pi)
                    (getValuesToSort Elem (EInt 0)
                       [mkValue [2; 2] [EInt 2; EInt 1; EInt 5; EInt 5];
                        mkValue [2; 2] [EStr "p"; EStr "q"; EStr "r";
                                        EStr "s"]]
                       ri sd n).
Proof.
  apply (public_sort_orders_every_row (EInt 0) keyOf true [2; 2]).
  - repeat constructor.
  - simpl. lia.
Defined.



(** X17: Sort returns a row of integer keys that is already in
    non-decreasing order unchanged, on the public path for every
    length and on the oblivious path for every length up to 32. *)
Theorem sorting_a_sorted_row_changes_nothing (n : nat) (v : list Z)
    (is_stable : bool) :
  0 < n -> length v = n -> Sorted Z.le v ->
  ovalues (Sort Z 0%Z [mkValue [n] v] 0 is_stable lessThan VIS_PUBLIC)
  = Ok [mkValue [n] v]
  /\ (n <= 32 ->
      ovalues (Sort Z 0%Z [mkValue [n] v] 0 is_stable lessThan VIS_SECRET)
      = Ok [mkValue [n] v]).
Proof.
  intros Hn Hl Hs. split.
  - rewrite Sort_single_vector by assumption. do 3 f_equal.
    destruct (public_row_sorted is_stable v) as (r & Hpub & Hsr & Hpr).
    rewrite <- Hl at 1.
    rewrite (public_row_values is_stable v r Hpub).
    now apply Sorted_Z_unique.
  - intros H32. rewrite Sort_single_vector by assumption. do 3 f_equal.
    apply Sorted_Z_unique; [|exact Hs|].
    + pose proof (secret_permutation_sorts_keys 0%Z (fun z => z) v n H32 Hl)
        as Hsec.
      now rewrite map_id in Hsec.
    + apply permute_Permutation. rewrite Hl.
      apply rowPermutation_Permutation;
        [apply lessThanBy_LengthPreserving|discriminate|now constructor].
Qed.

Lemma sorting_a_sorted_row_changes_nothing_witness :
  ovalues (Sort Z 0%Z [mkValue [6] [1; 2; 2; 5; 8; 9]%Z] 0 false lessThan
                VIS_PUBLIC)
  = Ok [mkValue [6] [1; 2; 2; 5; 8; 9]%Z]
  /\ (6 <= 32 ->
      ovalues (Sort Z 0%Z [mkValue [6] [1; 2; 2; 5; 8; 9]%Z] 0 false lessThan
                    VIS_SECRET)
      = Ok [mkValue [6] [1; 2; 2; 5; 8; 9]%Z]).
Proof.
  apply (sorting_a_sorted_row_changes_nothing 6 [1; 2; 2; 5; 8; 9]%Z false).
  - lia.
  - reflexivity.
  - repeat constructor; lia.
Defined.
